(** * Atlas Weather plugin: the data-freshness core

    A shallow embedding of the stale-while-revalidate cache, the refresh
    throttle, the trailing-edge debounce and the freshness controller of
    the weather page, followed by the properties of that core.

    Conventions of the embedding.
    - [Date.now()] is an integer number of milliseconds, a [Z].  Every
      call reads the field [now] of the world and then lets the clock
      move on by the next pending tick, so two reads inside one handler
      need not agree.
    - An object that is only ever tested for truthiness and passed
      along ([weather], [currentLocation], [homeLocation]) is an
      [option]: [None] stands for the falsy values the host hands over
      ([null], [undefined]), [Some] for an object.
    - Strings are tested for truthiness with [truthy]: the empty string
      is falsy, and a missing string ([weatherError], an unset
      [weatherLocationId]) is the empty string.  A number is falsy when
      it is [0].
    - Module-level variables, React state cells and the host's storage
      are fields of one record, [World]; handlers are state-passing
      functions in the monad [M].
    - [weatherCache] and [lastRefreshTimestamp] are plain objects used
      as maps.  The finite maps here hold their own properties; a read
      of a key that names a member of [Object.prototype] would find
      the inherited member in the code, and a write to [__proto__]
      stores nothing.  The maps are exact for every other key, the
      [plain_key]s, and statements about reads and writes of a key are
      made for plain keys. *)

From Stdlib Require Import ZArith Lia.
From stdpp Require Import base option list gmap strings fin_maps.

Local Open Scope Z_scope.

Section Model.

(** The forecast payload ([data: any]) is never inspected by the core. *)
Context {Payload : Type}.

(** ** Data model *)

(** [interface CachedWeatherData] *)
Record CachedWeatherData := mkCached {
  data : Payload;
  timestamp : Z;
  locationId : string;
}.

(** A pending [setTimeout] of the debounce closure: its handle, the time
    it is due and the arguments captured by the callback. *)
Record Timer := mkTimer {
  tid : positive;
  due : Z;
  targs : string;
}.

(** Calls that leave the plugin, in the order they are made, together
    with two bookkeeping marks: [EvRecordRefresh] when a throttle record
    is written and [EvInvoke] when a debounce callback calls its
    function. *)
Inductive Event :=
  | EvRecordRefresh (id : string) (t : Z)
  | EvRefreshWeather (arg : option string)
  | EvInvoke (args : string) (t : Z).

Record World := mkWorld {
  (* module-level variables *)
  weatherCache : gmap string CachedWeatherData;
  lastRefreshTimestamp : gmap string Z;
  (* the clock and the timer queue of the event loop *)
  now : Z;
  ticks : list Z;
  timers : list Timer;
  nextTimerId : positive;
  (* closure variable of the debounce instance kept in debouncedRefreshRef *)
  timeoutId : option positive;
  (* React state of WeatherPage *)
  cachedWeatherDisplay : option Payload;
  isRevalidating : bool;
  (* host collaborators *)
  storage : gmap string string;
  trace : list Event;
}.

Definition with_weatherCache (c : gmap string CachedWeatherData) (w : World) : World :=
  mkWorld c (lastRefreshTimestamp w) (now w) (ticks w) (timers w) (nextTimerId w)
          (timeoutId w) (cachedWeatherDisplay w) (isRevalidating w) (storage w) (trace w).

Definition with_lastRefreshTimestamp (r : gmap string Z) (w : World) : World :=
  mkWorld (weatherCache w) r (now w) (ticks w) (timers w) (nextTimerId w)
          (timeoutId w) (cachedWeatherDisplay w) (isRevalidating w) (storage w) (trace w).

Definition with_clock (n : Z) (ts : list Z) (w : World) : World :=
  mkWorld (weatherCache w) (lastRefreshTimestamp w) n ts (timers w) (nextTimerId w)
          (timeoutId w) (cachedWeatherDisplay w) (isRevalidating w) (storage w) (trace w).

Definition with_timers (q : list Timer) (n : positive) (w : World) : World :=
  mkWorld (weatherCache w) (lastRefreshTimestamp w) (now w) (ticks w) q n
          (timeoutId w) (cachedWeatherDisplay w) (isRevalidating w) (storage w) (trace w).

Definition with_timeoutId (t : option positive) (w : World) : World :=
  mkWorld (weatherCache w) (lastRefreshTimestamp w) (now w) (ticks w) (timers w)
          (nextTimerId w) t (cachedWeatherDisplay w) (isRevalidating w) (storage w) (trace w).

Definition with_cachedWeatherDisplay (d : option Payload) (w : World) : World :=
  mkWorld (weatherCache w) (lastRefreshTimestamp w) (now w) (ticks w) (timers w)
          (nextTimerId w) (timeoutId w) d (isRevalidating w) (storage w) (trace w).

Definition with_isRevalidating (b : bool) (w : World) : World :=
  mkWorld (weatherCache w) (lastRefreshTimestamp w) (now w) (ticks w) (timers w)
          (nextTimerId w) (timeoutId w) (cachedWeatherDisplay w) b (storage w) (trace w).

Definition with_storage (s : gmap string string) (w : World) : World :=
  mkWorld (weatherCache w) (lastRefreshTimestamp w) (now w) (ticks w) (timers w)
          (nextTimerId w) (timeoutId w) (cachedWeatherDisplay w) (isRevalidating w) s (trace w).

Definition with_trace (t : list Event) (w : World) : World :=
  mkWorld (weatherCache w) (lastRefreshTimestamp w) (now w) (ticks w) (timers w)
          (nextTimerId w) (timeoutId w) (cachedWeatherDisplay w) (isRevalidating w) (storage w) t.

(** ** The handler monad *)

Definition M (A : Type) : Type := World → A * World.

Definition ret {A} (a : A) : M A := fun w => (a, w).

Definition bind {A B} (c : M A) (k : A → M B) : M B :=
  fun w => let (a, w') := c w in k a w'.

Global Instance M_ret : MRet M := @ret.
Global Instance M_bind : MBind M := fun A B k c => bind c k.

Definition modify (f : World → World) : M unit := fun w => (tt, f w).

(** [Date.now()] *)
Definition Date_now : M Z := fun w =>
  (now w, match ticks w with
          | [] => w
          | d :: ds => with_clock (now w + d) ds w
          end).

(** JavaScript truthiness of a string. *)
Definition truthy (s : string) : bool := negb (String.eqb s "").

(** The names of the members of [Object.prototype]. *)
Definition Object_prototype_keys : list string :=
  ["constructor"; "hasOwnProperty"; "isPrototypeOf"; "propertyIsEnumerable";
   "toLocaleString"; "toString"; "valueOf"; "__proto__";
   "__defineGetter__"; "__defineSetter__"; "__lookupGetter__";
   "__lookupSetter__"]%string.

Definition plain_keyb (k : string) : bool :=
  negb (existsb (String.eqb k) Object_prototype_keys).

(** A key for which an object used as a map behaves as a map. *)
Definition plain_key (k : string) : Prop := plain_keyb k = true.

(** ** Weather cache utilities *)

Definition CACHE_TTL_MS : Z := 5 * 60 * 1000.

Definition getCachedWeather (locationId : string) : M (option CachedWeatherData) := fun w =>
  match weatherCache w !! locationId with
  | None => (None, w)
  | Some cached =>
      (t ← Date_now;
       let isExpired := t - timestamp cached >? CACHE_TTL_MS in
       if isExpired
       then modify (fun w => with_weatherCache (delete locationId (weatherCache w)) w) ;; ret None
       else ret (Some cached)) w
  end.

Definition setCachedWeather (locationId : string) (data : Payload) : M unit :=
  t ← Date_now;
  modify (fun w => with_weatherCache
                     (<[locationId := mkCached data t locationId]> (weatherCache w)) w).

Definition isCacheStale (locationId : string) : M bool := fun w =>
  match weatherCache w !! locationId with
  | None => (true, w)
  | Some cached => (t ← Date_now; ret (t - timestamp cached >? CACHE_TTL_MS)) w
  end.

(** ** Rate limiting utilities *)

Definition REFRESH_COOLDOWN_MS : Z := 30 * 1000.

(** [if (!lastRefresh) return true]: a missing record and a recorded
    [0] are both falsy. *)
Definition canRefresh (locationId : string) : M bool := fun w =>
  match lastRefreshTimestamp w !! locationId with
  | None => (true, w)
  | Some lastRefresh =>
      if lastRefresh =? 0 then (true, w)
      else (t ← Date_now; ret (t - lastRefresh >? REFRESH_COOLDOWN_MS)) w
  end.

Definition recordRefresh (locationId : string) : M unit :=
  t ← Date_now;
  modify (fun w => with_trace (trace w ++ [EvRecordRefresh locationId t])
                     (with_lastRefreshTimestamp
                        (<[locationId := t]> (lastRefreshTimestamp w)) w)).

Definition getRefreshCooldownRemaining (locationId : string) : M Z := fun w =>
  match lastRefreshTimestamp w !! locationId with
  | None => (0, w)
  | Some lastRefresh =>
      if lastRefresh =? 0 then (0, w)
      else (t ← Date_now;
            let elapsed := t - lastRefresh in
            ret (Z.max 0 (REFRESH_COOLDOWN_MS - elapsed))) w
  end.

(** ** Timers and the debounce utility *)

(** The largest delay a timer takes as it is; a larger one is not
    honoured by the platform. *)
Definition TIMEOUT_MAX : Z := 2147483647.

(** [setTimeout(cb, wait)]: the callback of the debounce closure is
    known, so the queue keeps only the arguments it captured.  Handles
    are positive integers, hence truthy.  The delay is as the platform
    takes it for [wait] up to [TIMEOUT_MAX]. *)
Definition setTimeout (args : string) (wait : Z) : M positive := fun w =>
  let i := nextTimerId w in
  (i, with_timers (timers w ++ [mkTimer i (now w + Z.max 0 wait) args]) (Pos.succ i) w).

(** [clearTimeout(id)] *)
Definition clearTimeout (i : positive) : M unit :=
  modify (fun w => with_timers
                     (List.filter (fun t => negb (Pos.eqb (tid t) i)) (timers w))
                     (nextTimerId w) w).

(** The function returned by [debounce(func, wait)], applied to [args]. *)
Definition debounced (wait : Z) (args : string) : M unit := fun w =>
  (match timeoutId w with
   | Some i => clearTimeout i
   | None => ret tt
   end ;;
   i ← setTimeout args wait;
   modify (with_timeoutId (Some i))) w.

(** The callback handed to [setTimeout]: [func(...args); timeoutId = null]. *)
Definition debounce_callback (func : string → M unit) (args : string) : M unit :=
  modify (fun w => with_trace (trace w ++ [EvInvoke args (now w)]) w) ;;
  func args ;;
  modify (with_timeoutId None).

(** The first timer of the queue among those with the least due time
    that is not after [T]. *)
Fixpoint next_due (T : Z) (q : list Timer) : option Timer :=
  match q with
  | [] => None
  | t :: q' =>
      match next_due T q' with
      | Some t' => if due t' <? due t then Some t' else Some t
      | None => if due t <=? T then Some t else None
      end
  end.

(** The event loop takes a due timer off the queue and runs its
    callback, no earlier than the time it is due. *)
Definition fire (func : string → M unit) (t : Timer) : M unit :=
  modify (fun w => with_clock (Z.max (now w) (due t)) (ticks w)
                     (with_timers
                        (List.filter (fun t' => negb (Pos.eqb (tid t') (tid t))) (timers w))
                        (nextTimerId w) w)) ;;
  debounce_callback func (targs t).

(** Let time pass up to [T], running the timers that fall due on the
    way.  The answer is [false] when the fuel ran out first. *)
Fixpoint runUntil (func : string → M unit) (fuel : nat) (T : Z) : M bool := fun w =>
  match next_due T (timers w) with
  | None => (true, with_clock (Z.max (now w) T) (ticks w) w)
  | Some t =>
      match fuel with
      | O => (false, w)
      | S fuel' => (fire func t ;; runUntil func fuel' T) w
      end
  end.

(** ** The weather page *)

Record Location := mkLocation {
  loc_id : string;
  loc_name : string;
}.

(** What [useAppData()] and the sidebar context hand to one render. *)
Record Props := mkProps {
  weather : option Payload;
  weatherError : string;
  homeLocation : option Location;
  savedLocations : list Location;
  currentLocation : option Location;
  weatherLocationId : string;
}.

Definition LAST_LOCATION_KEY : string := "lastViewedWeatherLocation".

Definition setCachedWeatherDisplay (d : option Payload) : M unit :=
  modify (with_cachedWeatherDisplay d).

Definition setIsRevalidating (b : bool) : M unit :=
  modify (with_isRevalidating b).

(** The host's [refreshWeather(locationId?)]: fire and forget. *)
Definition refreshWeather (arg : option string) : M unit :=
  modify (fun w => with_trace (trace w ++ [EvRefreshWeather arg]) w).

(** The function wrapped by [debounce] inside [debouncedRefresh]. *)
Definition refreshAction (locId : string) : M unit :=
  ok ← canRefresh locId;
  if ok : bool
  then recordRefresh locId ;; setIsRevalidating true ;; refreshWeather (Some locId)
  else ret tt.

(** [debouncedRefresh]: the instance is created on first use with an
    empty [timeoutId], which is the state [timeoutId = None] here. *)
Definition debouncedRefresh (locationId : string) : M unit :=
  debounced 300 locationId.

(** [weatherLocationId || (currentLocation ? 'current-location'
    : homeLocation?.id) || 'default'] *)
Definition effectLocationId (p : Props) : string :=
  if truthy (weatherLocationId p) then weatherLocationId p
  else
    match (match currentLocation p with
           | Some _ => Some "current-location"%string
           | None => loc_id <$> homeLocation p
           end) with
    | Some s => if truthy s then s else "default"%string
    | None => "default"%string
    end.

(** [initializeLocation]: the answer is the argument passed to
    [setWeatherLocationId], if it is called. *)
Definition initializeLocation (p : Props) : M (option string) := fun w =>
  if negb (truthy (weatherLocationId p)) then
    let fallback :=
      match currentLocation p with
      | Some _ => Some "current-location"%string
      | None => loc_id <$> homeLocation p
      end in
    match storage w !! LAST_LOCATION_KEY with
    | Some lastLocation =>
        if truthy lastLocation then
          let isValidSaved :=
            existsb (fun loc => String.eqb (loc_id loc) lastLocation) (savedLocations p) in
          let isCurrentLocation :=
            String.eqb lastLocation "current-location"
            && bool_decide (is_Some (currentLocation p)) in
          let isHome :=
            match homeLocation p with
            | Some h => String.eqb lastLocation (loc_id h)
            | None => false
            end in
          if isValidSaved || isCurrentLocation || isHome
          then (Some lastLocation, w)
          else (fallback, w)
        else (fallback, w)
    | None => (fallback, w)
    end
  else (None, w).

(** The effect that saves the location when it changes. *)
Definition saveLocationEffect (p : Props) : M unit :=
  if truthy (weatherLocationId p)
  then modify (fun w => with_storage
                          (<[LAST_LOCATION_KEY := weatherLocationId p]> (storage w)) w)
  else ret tt.

(** The stale-while-revalidate effect, run when the location changes. *)
Definition staleWhileRevalidateEffect (p : Props) : M unit :=
  let locationId := effectLocationId p in
  cached ← getCachedWeather locationId;
  match cached with
  | Some c =>
      setCachedWeatherDisplay (Some (data c)) ;;
      stale ← isCacheStale locationId;
      if stale : bool then debouncedRefresh locationId else ret tt
  | None =>
      setCachedWeatherDisplay None ;;
      setIsRevalidating true ;;
      ok ← canRefresh locationId;
      if ok : bool
      then recordRefresh locationId ;;
           refreshWeather (if String.eqb locationId "default" then None else Some locationId)
      else ret tt
  end.

(** The effect that runs when fresh weather data arrives from the host. *)
Definition weatherArrivedEffect (p : Props) : M unit :=
  match weather p with
  | Some wx =>
      let locationId := effectLocationId p in
      setCachedWeather locationId wx ;;
      setCachedWeatherDisplay (Some wx) ;;
      setIsRevalidating false
  | None => ret tt
  end.

(** [const displayWeather = cachedWeatherDisplay || weather] *)
Definition displayWeather (p : Props) (w : World) : option Payload :=
  match cachedWeatherDisplay w with
  | Some d => Some d
  | None => weather p
  end.

(** What the component returns: the error view, or the page built
    around [displayWeather] and the revalidating flag. *)
Inductive View :=
  | ErrorView (message : string)
  | ForecastView (shown : option Payload) (updating : bool).

Definition render (p : Props) (w : World) : View :=
  if truthy (weatherError p) && negb (bool_decide (is_Some (displayWeather p w)))
  then ErrorView (weatherError p)
  else ForecastView (displayWeather p w) (isRevalidating w).

(** ** Scenarios *)

(** The state at plugin load: both maps empty, nothing displayed. *)
Definition initWorld (t0 : Z) (ts : list Z) : World :=
  mkWorld ∅ ∅ t0 ts [] 1%positive None None false ∅ [].

(** Time passing between two handlers. *)
Definition elapse (dt : Z) : M unit :=
  modify (fun w => with_clock (now w + dt) (ticks w) w).

(** A use of the weather cache. *)
Inductive CacheOp :=
  | OpPut (id : string) (d : Payload)
  | OpGet (id : string)
  | OpIsStale (id : string)
  | OpWait (dt : Z).

Definition cacheOp (op : CacheOp) : M unit :=
  match op with
  | OpPut id d => setCachedWeather id d
  | OpGet id => getCachedWeather id ;; ret tt
  | OpIsStale id => isCacheStale id ;; ret tt
  | OpWait dt => elapse dt
  end.

(** Run a sequence of cache operations, keeping the log of the puts:
    the clock reading each one stamped, its key and its payload. *)
Fixpoint runCache (ops : list CacheOp) (w : World) (puts : list (Z * string * Payload))
  : World * list (Z * string * Payload) :=
  match ops with
  | [] => (w, puts)
  | op :: ops' =>
      let puts' := match op with
                   | OpPut id d => puts ++ [(now w, id, d)]
                   | _ => puts
                   end in
      runCache ops' (cacheOp op w).2 puts'
  end.

(** The clock never runs backwards during a scenario. *)
Definition op_forward (op : CacheOp) : Prop :=
  match op with
  | OpWait dt => 0 ≤ dt
  | _ => True
  end.

(** The puts of a scenario are under plain keys. *)
Definition op_plain (op : CacheOp) : Prop :=
  match op with
  | OpPut id _ => plain_key id
  | _ => True
  end.

(** A burst of calls [(t, args)] to the debounced function: time passes
    up to [t], then the call is made. *)
Fixpoint burst (func : string → M unit) (wait : Z) (fuel : nat)
    (calls : list (Z * string)) : M bool :=
  match calls with
  | [] => ret true
  | (t, args) :: rest =>
      ok ← runUntil func fuel t;
      debounced wait args ;;
      ok' ← burst func wait fuel rest;
      ret (ok && ok')
  end.

(** Consecutive calls are less than [wait] apart, starting from [t]. *)
Fixpoint close_calls (wait t : Z) (calls : list (Z * string)) : Prop :=
  match calls with
  | [] => True
  | (t', _) :: rest => t ≤ t' ∧ t' - t < wait ∧ close_calls wait t' rest
  end.

(** The calls of the debounce callback to its function found in a trace. *)
Fixpoint invocations (tr : list Event) : list (string * Z) :=
  match tr with
  | [] => []
  | EvInvoke a t :: tr' => (a, t) :: invocations tr'
  | _ :: tr' => invocations tr'
  end.

(** The calls to the host's [refreshWeather] found in a trace. *)
Fixpoint fetches (tr : list Event) : list (option string) :=
  match tr with
  | [] => []
  | EvRefreshWeather a :: tr' => a :: fetches tr'
  | _ :: tr' => fetches tr'
  end.

(** ** Properties named by the specification *)

(** Every key of the cache holds an entry made for that key. *)
Definition cache_keyed (w : World) : Prop :=
  ∀ k e, weatherCache w !! k = Some e → locationId e = k.

(** The age of a cache entry at the next clock reading. *)
Definition age (w : World) (e : CachedWeatherData) : Z := now w - timestamp e.

Definition clock_ok (w : World) : Prop := Forall (Z.le 0) (ticks w).

(** What ties a cache to the log of the puts that built it: the log
    lies in the past, an entry is the latest put for its key, and a key
    without an entry has only puts older than the TTL. *)
Record hist_inv (w : World) (puts : list (Z * string * Payload)) : Prop := mkHistInv {
  hist_past : ∀ t k d, (t, k, d) ∈ puts → t ≤ now w;
  hist_entry : ∀ k e, weatherCache w !! k = Some e →
      (timestamp e, k, data e) ∈ puts ∧ locationId e = k
      ∧ ∀ t d, (t, k, d) ∈ puts → t ≤ timestamp e;
  hist_gone : ∀ k, weatherCache w !! k = None →
      ∀ t d, (t, k, d) ∈ puts → CACHE_TTL_MS < now w - t;
  hist_clock : clock_ok w;
}.

(** One call of the debounced function is pending: made at [t] with
    [args], due [wait] later, and [timeoutId] holds its handle. *)
Definition armed (wait t : Z) (args : string) (w : World) : Prop :=
  now w = t ∧ ∃ i, timers w = [mkTimer i (t + wait) args] ∧ timeoutId w = Some i.

(** The state when the one call pending in [w], made with [args], has
    run at time [t]: its timer is off the queue, the clock reads [t],
    the wrapped function has been applied to [args], and [timeoutId] is
    null again. *)
Definition after_call (func : string → M unit) (t : Z) (args : string) (w : World)
  : World :=
  with_timeoutId None
    (func args
       (with_trace (trace w ++ [EvInvoke args t])
          (with_clock t (ticks w) (with_timers [] (nextTimerId w) w)))).2.

(** The state a burst leaves: that of [w] but for the clock at [t] and
    the one timer [i], due [wait] later, with the next handle [n]. *)
Definition left_pending (wait t : Z) (args : string) (i n : positive) (w : World)
  : World :=
  with_timeoutId (Some i)
    (with_timers [mkTimer i (t + wait) args] n (with_clock t (ticks w) w)).

(** The wrapped function leaves the timer queue alone and is not itself
    a call of the debounce callback. *)
Definition plain_action (func : string → M unit) : Prop :=
  ∀ a w, timers (func a w).2 = timers w
         ∧ invocations (trace (func a w).2) = invocations (trace w).

(** A payload delivered by the host, with the location whose fetch
    produced it.  The value the page receives carries no such tag. *)
Record Arrival := mkArrival {
  fetchedFor : string;
  payload : Payload;
}.

Definition deliver (a : Arrival) (p : Props) : Props :=
  mkProps (Some (payload a)) (weatherError p) (homeLocation p) (savedLocations p)
          (currentLocation p) (weatherLocationId p).

(** The specification's reading of a late arrival: the cache entry of
    the location the payload was fetched for holds the payload, and the
    displayed payload is as it was. *)
Definition late_arrival_per_spec (a : Arrival) (p : Props) (w : World) : Prop :=
  let w' := (weatherArrivedEffect (deliver a p) w).2 in
  data <$> (weatherCache w' !! fetchedFor a) = Some (payload a)
  ∧ cachedWeatherDisplay w' = cachedWeatherDisplay w.

(** The specification's reading of a switch to a location with a stale
    entry: the entry's payload is displayed and a debounced refresh for
    the location is pending. *)
Definition stale_switch_per_spec (p : Props) (e : CachedWeatherData) (w : World) : Prop :=
  let w' := (staleWhileRevalidateEffect p w).2 in
  cachedWeatherDisplay w' = Some (data e)
  ∧ ∃ t, t ∈ timers w' ∧ targs t = effectLocationId p.

(** The stored last location still resolves: a saved location, the
    device pseudo-id while a device location is present, or home. *)
Definition still_resolves (p : Props) (lastLocation : string) : Prop :=
  (∃ loc, loc ∈ savedLocations p ∧ loc_id loc = lastLocation)
  ∨ (lastLocation = "current-location"%string ∧ is_Some (currentLocation p))
  ∨ (∃ h, homeLocation p = Some h ∧ loc_id h = lastLocation).

(** Device location if available, else home, else nothing. *)
Definition fallback_location (p : Props) : option string :=
  match currentLocation p, homeLocation p with
  | Some _, _ => Some "current-location"%string
  | None, Some h => Some (loc_id h)
  | None, None => None
  end.

End Model.

Arguments CachedWeatherData : clear implicits.
Arguments World : clear implicits.
Arguments Props : clear implicits.
Arguments CacheOp : clear implicits.
Arguments Arrival : clear implicits.
Arguments View : clear implicits.

Arguments Date_now : simpl never.
Arguments getCachedWeather : simpl never.
Arguments setCachedWeather : simpl never.
Arguments isCacheStale : simpl never.
Arguments canRefresh : simpl never.
Arguments recordRefresh : simpl never.
Arguments refreshAction : simpl never.
Arguments debounced : simpl never.

(** * Concrete scenarios *)

Section Scenarios.

(** Payloads are numbered snapshots here. *)
Definition loaded : World nat := initWorld 0 [].

(** [put("nyc", 7)] at time 0, then 100 s pass. *)
Definition nyc_ops : list (CacheOp nat) := [OpPut "nyc" 7%nat; OpWait 100000].

(** A cache holding a snapshot of Paris taken 301 s ago. *)
Definition paris_stale : World nat :=
  (elapse 301000 (setCachedWeather "paris" 5%nat loaded).2).2.

(** The page with the active location set to [id] and nothing else. *)
Definition viewing (id : string) : Props nat := mkProps None "" None [] None id.

(** Tokyo is displayed from a snapshot taken a second ago. *)
Definition tokyo_shown : World nat :=
  (elapse 1000
     (weatherArrivedEffect
        (mkProps (Some 1%nat) "" None [] None "tokyo") loaded).2).2.

Definition paris_arrives : Arrival nat := mkArrival "paris" 2%nat.

Definition nyc_after : World nat := (runCache nyc_ops loaded []).1.
Definition nyc_puts : list (Z * string * nat) := (runCache nyc_ops loaded []).2.

(** Long after load, with a refresh of Paris recorded 10 s ago. *)
Definition long_after : World nat := (elapse 1000000 loaded).2.
Definition paris_refreshed : World nat :=
  (elapse 10000 (recordRefresh "paris" long_after).2).2.

(** The calls that follow a first call made at time 0: one 100 ms
    after it, the next 250 ms after that. *)
Definition later_calls : list (Z * string) := [(100, "tokyo"%string); (350, "oslo"%string)].

(** Paris is saved and was the last location viewed; none is active. *)
Definition paris_saved : Props nat :=
  mkProps None "" None [mkLocation "paris" "Paris"] None "".
Definition paris_remembered : World nat :=
  (saveLocationEffect (viewing "paris") loaded).2.

(** The host reports an error and there is nothing to show. *)
Definition fetch_failed : Props nat := mkProps None "boom" None [] None "paris".

End Scenarios.

(** * The rest of the plugin *)

Section Rest.

Context {Payload : Type}.

(** ** Weather icon utilities *)

(** [WEATHER_ICON_MAP].  It is only ever indexed with a string of at
    most two characters, and no property inherited from
    [Object.prototype] has so short a name, so a lookup sees the own
    properties only. *)
Definition WEATHER_ICON_MAP : gmap string string :=
  list_to_map
    [("01", "Sun"); ("02", "CloudSun"); ("03", "Cloud"); ("04", "Cloud");
     ("09", "CloudRain"); ("10", "CloudRain"); ("11", "CloudRain");
     ("13", "Cloud"); ("50", "Cloud")]%string.

(** [getWeatherIconKey]: the argument is [undefined] or a string. *)
Definition getWeatherIconKey (iconCode : option string) : string :=
  match iconCode with
  | None => "Cloud"
  | Some code =>
      if negb (truthy code) then "Cloud"
      else
        let prefix := String.substring 0 2 code in
        match WEATHER_ICON_MAP !! prefix with
        | Some key => if truthy key then key else "Cloud"
        | None => "Cloud"
        end
  end%string.

(** The four icon components taken from [lucideIcons]. *)
Inductive IconComponent := Sun | CloudSun | Cloud | CloudRain.

(** [iconComponents] *)
Definition iconComponents : gmap string IconComponent :=
  list_to_map
    [("Sun", Sun); ("CloudSun", CloudSun); ("Cloud", Cloud);
     ("CloudRain", CloudRain)]%string.

(** [getWeatherIcon] of the page: [iconComponents[key] || Cloud]. *)
Definition getWeatherIcon (icon : option string) : IconComponent :=
  let key := getWeatherIconKey icon in
  match iconComponents !! key with
  | Some component => component
  | None => Cloud
  end.

(** ** The header of the page *)

Definition isCurrentLocationSelected (p : Props Payload) : bool :=
  String.eqb (weatherLocationId p) "current-location".

Definition selectedSavedLocation (p : Props Payload) : option Location :=
  List.find (fun loc => String.eqb (loc_id loc) (weatherLocationId p)) (savedLocations p).

(** [selectedLocation] is either the object built for the device
    location or a location object of the directory. *)
Inductive Selected :=
  | SelectedDevice (name : string)
  | SelectedStored (loc : Location).

Definition selected_name (s : Selected) : string :=
  match s with
  | SelectedDevice name => name
  | SelectedStored loc => loc_name loc
  end.

Definition selectedLocation (p : Props Payload) : option Selected :=
  if isCurrentLocationSelected p
  then match currentLocation p with
       | Some c => Some (SelectedDevice (loc_name c))
       | None => None
       end
  else match selectedSavedLocation p with
       | Some loc => Some (SelectedStored loc)
       | None => SelectedStored <$> homeLocation p
       end.

(** The text of the [h2] of the header, when the header is rendered:
    [displayWeather && selectedLocation && ...]. *)
Definition headerTitle (p : Props Payload) (w : World Payload) : option string :=
  match displayWeather p w, selectedLocation p with
  | Some _, Some sel =>
      Some (if isCurrentLocationSelected p then "Current location"%string
            else selected_name sel)
  | _, _ => None
  end.

(** The argument of the direct [refreshWeather] call of the
    stale-while-revalidate effect:
    [locationId === 'default' ? undefined : locationId]. *)
Definition directRefreshArg (p : Props Payload) : option string :=
  if String.eqb (effectLocationId p) "default" then None
  else Some (effectLocationId p).

(** What a change of the active location runs: the effects that list
    [weatherLocationId] among their dependencies, in the order the
    component declares them.  The effect around [initializeLocation]
    is among them as well; it writes nothing of the world, and asks
    for a location only when none is active. *)
Definition onLocationChange (p : Props Payload) : M unit :=
  saveLocationEffect p ;;
  staleWhileRevalidateEffect p ;;
  weatherArrivedEffect p.

(** ** The settings panel *)

(** What the settings panel keeps in the host's storage: a number or a
    string.  [api.storage.get] hands back whatever is stored. *)
Inductive StoredValue :=
  | SNum (n : Z)
  | SStr (s : string).

Definition truthy_value (v : StoredValue) : bool :=
  match v with
  | SNum n => negb (n =? 0)
  | SStr s => truthy s
  end.

(** React state of [WeatherSettings]. *)
Record SettingsState := mkSettings {
  refreshInterval : StoredValue;
  temperatureUnit : StoredValue;
  loading : bool;
}.

(** The state at mount: [useState(30)], [useState('fahrenheit')],
    [useState(true)]. *)
Definition settingsAtMount : SettingsState :=
  mkSettings (SNum 30) (SStr "fahrenheit") true.

Definition setRefreshInterval (v : StoredValue) (s : SettingsState) : SettingsState :=
  mkSettings v (temperatureUnit s) (loading s).

Definition setTemperatureUnit (v : StoredValue) (s : SettingsState) : SettingsState :=
  mkSettings (refreshInterval s) v (loading s).

Definition setLoading (b : bool) (s : SettingsState) : SettingsState :=
  mkSettings (refreshInterval s) (temperatureUnit s) b.

(** [loadSettings] *)
Definition loadSettings (store : gmap string StoredValue) (s : SettingsState)
  : SettingsState :=
  let interval := store !! "refreshInterval"%string in
  let unit := store !! "temperatureUnit"%string in
  let s1 := match interval with
            | Some v => if truthy_value v then setRefreshInterval v s else s
            | None => s
            end in
  let s2 := match unit with
            | Some v => if truthy_value v then setTemperatureUnit v s1 else s1
            | None => s1
            end in
  setLoading false s2.

(** [updateSetting(key, value, setter)] *)
Definition updateSetting (key : string) (value : StoredValue)
    (setter : StoredValue → SettingsState → SettingsState)
    (st : SettingsState * gmap string StoredValue)
  : SettingsState * gmap string StoredValue :=
  (setter value st.1, <[key := value]> st.2).

(** ** Runs of the page *)

(** What can happen to a mounted page: one of its effects runs, or time
    passes and the event loop runs the timers that fall due.  A run is
    that of one mount, with the one debounced function made at mount;
    each event runs one effect, and the three effects a change of
    location triggers together are [onLocationChange]. *)
Inductive PageEvent :=
  | EvtLocationChange (p : Props Payload)
  | EvtWeatherArrived (p : Props Payload)
  | EvtSaveLocation (p : Props Payload)
  | EvtTimePasses (T : Z) (fuel : nat).

Definition pageStep (ev : PageEvent) : M unit :=
  match ev with
  | EvtLocationChange p => staleWhileRevalidateEffect p
  | EvtWeatherArrived p => weatherArrivedEffect p
  | EvtSaveLocation p => saveLocationEffect p
  | EvtTimePasses T fuel => runUntil refreshAction fuel T ;; ret tt
  end.

Fixpoint runPage (evs : list PageEvent) (w : World Payload) : World Payload :=
  match evs with
  | [] => w
  | ev :: evs' => runPage evs' (pageStep ev w).2
  end.

(** Nothing is pending, or exactly one call is and [timeoutId] holds
    its handle. *)
Definition idle_or_armed (w : World Payload) : Prop :=
  (timers w = [] ∧ timeoutId w = None)
  ∨ ∃ i d a, timers w = [mkTimer i d a] ∧ timeoutId w = Some i.

(** The argument of a fetch that follows a throttle record for [id]. *)
Definition fetch_arg_of (id : string) (arg : option string) : Prop :=
  arg = Some id ∨ (arg = None ∧ id = "default"%string).

(** What a run of the page keeps true of the throttle: the clock is
    well past the epoch and runs forward, no record is in the future,
    every record written so far
    is no later than the current record of its key, two records of one
    key are more than the cooldown apart, and every fetch comes right
    after a record. *)
Record throttle_inv (w : World Payload) : Prop := mkThrottleInv {
  thr_clock : clock_ok w;
  thr_epoch : REFRESH_COOLDOWN_MS < now w;
  thr_past : ∀ id t, lastRefreshTimestamp w !! id = Some t → t ≤ now w;
  thr_latest : ∀ i id t, trace w !! i = Some (EvRecordRefresh id t) →
      ∃ t', lastRefreshTimestamp w !! id = Some t' ∧ t ≤ t';
  thr_spaced : ∀ (i j : nat) id t1 t2, (i < j)%nat →
      trace w !! i = Some (EvRecordRefresh id t1) →
      trace w !! j = Some (EvRecordRefresh id t2) →
      REFRESH_COOLDOWN_MS < t2 - t1;
  thr_gated : ∀ (j : nat) arg, trace w !! j = Some (EvRefreshWeather arg) →
      ∃ (i : nat) id t, j = S i ∧ trace w !! i = Some (EvRecordRefresh id t)
                        ∧ fetch_arg_of id arg;
}.

(** A step that writes no throttle record, makes no outgoing call and
    leaves the timers alone; the clock may have moved forward. *)
Definition quiet (w w' : World Payload) : Prop :=
  lastRefreshTimestamp w' = lastRefreshTimestamp w
  ∧ trace w' = trace w
  ∧ timers w' = timers w
  ∧ timeoutId w' = timeoutId w
  ∧ (clock_ok w → now w ≤ now w' ∧ clock_ok w').

(** Each call comes more than [wait] after the one before, starting
    after [t]. *)
Fixpoint spaced_calls (wait t : Z) (calls : list (Z * string)) : Prop :=
  match calls with
  | [] => True
  | (t', _) :: rest => t + wait < t' ∧ spaced_calls wait t' rest
  end.

(** What each call of a list hands to the function, and when. *)
Definition due_invocations (wait : Z) (calls : list (Z * string)) : list (string * Z) :=
  map (fun c => (c.2, c.1 + wait)) calls.

(** The state when every call of a list has, in turn, been left pending
    while nothing else was and has then run, the wait after it was
    made: the wrapped function is applied once per call, in order. *)
Fixpoint each_call_run (func : string → M (Payload := Payload) unit) (wait : Z)
    (calls : list (Z * string)) (w : World Payload) : World Payload :=
  match calls with
  | [] => w
  | (t, a) :: rest =>
      each_call_run func wait rest
        (after_call func (t + wait) a
           (left_pending wait t a (nextTimerId w) (Pos.succ (nextTimerId w)) w))
  end.

End Rest.

Arguments PageEvent : clear implicits.

(** ** The page without the cache ([src/index.tsx]) *)

Module IndexTsx.

Section Page.

Context {Payload : Type}.

(** [s.includes(needle)] *)
Fixpoint includes (s needle : string) : bool :=
  String.prefix needle s
  || match s with
     | EmptyString => false
     | String _ s' => includes s' needle
     end.

(** [getWeatherIcon]: [icon?.includes(...)] is falsy for [undefined]. *)
Definition getWeatherIcon (icon : option string) : IconComponent :=
  match icon with
  | None => Cloud
  | Some code =>
      if includes code "01" then Sun
      else if includes code "02" then CloudSun
      else if includes code "03" || includes code "04" then Cloud
      else if includes code "09" || includes code "10" then CloudRain
      else Cloud
  end.

(** The effect that sets the initial location: the answer is the
    argument passed to [setWeatherLocationId], if it is called. *)
Definition initialLocationEffect (p : Props Payload) : option string :=
  if negb (truthy (weatherLocationId p)) then
    match currentLocation p with
    | Some _ => Some "current-location"%string
    | None =>
        match homeLocation p with
        | Some h => Some (loc_id h)
        | None => None
        end
    end
  else None.

(** The argument of the one [refreshWeather] call of the effect that
    runs when the location changes; [None] is the call without one. *)
Definition refreshArg (p : Props Payload) : option string :=
  if truthy (weatherLocationId p) then Some (weatherLocationId p)
  else match currentLocation p with
       | Some _ => Some "current-location"%string
       | None =>
           match homeLocation p with
           | Some h => Some (loc_id h)
           | None => None
           end
       end.

(** What the component returns: the error view, or the page built
    around [weather]. *)
Definition render (p : Props Payload) : View Payload :=
  if truthy (weatherError p) && negb (bool_decide (is_Some (weather p)))
  then ErrorView (weatherError p)
  else ForecastView (weather p) false.

End Page.

End IndexTsx.

(** ** Scenarios for the rest of the plugin *)

Section ScenariosRest.

(** Paris is opened twice, 40 s apart, with nothing cached. *)
Definition two_paris_visits : list (PageEvent nat) :=
  [EvtLocationChange (viewing "paris"); EvtTimePasses 140000 1;
   EvtLocationChange (viewing "paris")].

(** A cache holding a snapshot of Paris taken 100 s ago. *)
Definition paris_fresh : World nat :=
  (elapse 100000 (setCachedWeather "paris" 5%nat loaded).2).2.

(** The host delivers snapshot 1 while Tokyo is active. *)
Definition tokyo_arrives : Props nat := mkProps (Some 1%nat) "" None [] None "tokyo".

(** Calls of a debounced function that are 400 ms and 500 ms apart. *)
Definition far_calls : list (Z * string) := [(400, "tokyo"%string); (900, "oslo"%string)].

(** A function to debounce that fetches without asking the throttle. *)
Definition fetch_always (a : string) : M (Payload := nat) unit := refreshWeather (Some a).

(** Only a home location is known and nothing is stored. *)
Definition home_only : Props nat :=
  mkProps None "" (Some (mkLocation "oslo" "Oslo")) [] None "".

(** Tokyo is saved and active. *)
Definition tokyo_saved : Props nat :=
  mkProps None "" None [mkLocation "tokyo" "Tokyo"] None "tokyo".

(** No location is active; the device location and a home are known. *)
Definition device_and_home : Props nat :=
  mkProps (Some 1%nat) "" (Some (mkLocation "oslo" "Oslo")) []
          (Some (mkLocation "here" "Here")) "".

End ScenariosRest.

(** * Verification *)

Section Properties.

Context {Payload : Type}.

Implicit Types (w : World Payload) (p : Props Payload) (id : string).

(** Unfold the monad down to state passing. *)
Ltac run :=
  unfold mbind, M_bind, bind, mret, M_ret, ret, modify in *; simpl in *.

(** ** The clock *)

Lemma Date_now_forward w :
  Forall (Z.le 0) (ticks w) →
  now w ≤ now (Date_now w).2 ∧ Forall (Z.le 0) (ticks (Date_now w).2).
Proof.
  intros Hticks. unfold Date_now; simpl.
  destruct (ticks w) as [|d ds] eqn:E; simpl.
  - rewrite E. split; [lia | constructor].
  - inversion Hticks; subst. split; [lia | assumption].
Qed.

(** ** Weather cache *)

Lemma getCachedWeather_absent w id :
  weatherCache w !! id = None → getCachedWeather id w = (None, w).
Proof. intros H. unfold getCachedWeather. by rewrite H. Qed.

Lemma getCachedWeather_live w id e :
  weatherCache w !! id = Some e → age w e ≤ CACHE_TTL_MS →
  (getCachedWeather id w).1 = Some e
  ∧ weatherCache (getCachedWeather id w).2 = weatherCache w.
Proof.
  intros H Hage. unfold getCachedWeather, age in *. rewrite H. run.
  destruct (Z.gtb_spec (now w - timestamp e) CACHE_TTL_MS) as [Hgt|_]; [lia|].
  simpl. split; [done|]. by destruct (ticks w).
Qed.

Lemma getCachedWeather_expired w id e :
  weatherCache w !! id = Some e → CACHE_TTL_MS < age w e →
  (getCachedWeather id w).1 = None
  ∧ weatherCache (getCachedWeather id w).2 = delete id (weatherCache w).
Proof.
  intros H Hage. unfold getCachedWeather, age in *. rewrite H. run.
  destruct (Z.gtb_spec (now w - timestamp e) CACHE_TTL_MS) as [_|Hle]; [|lia].
  simpl. split; [done|]. by destruct (ticks w).
Qed.

Lemma setCachedWeather_cache w id d :
  weatherCache (setCachedWeather id d w).2
  = <[id := mkCached d (now w) id]> (weatherCache w).
Proof. unfold setCachedWeather. run. by destruct (ticks w). Qed.

Lemma isCacheStale_cache w id :
  weatherCache (isCacheStale id w).2 = weatherCache w.
Proof.
  unfold isCacheStale. destruct (weatherCache w !! id); [|done].
  run. by destruct (ticks w).
Qed.


(** *** The cache along a history of operations *)

Lemma hist_inv_init t0 ts : Forall (Z.le 0) ts → hist_inv (initWorld (Payload := Payload) t0 ts) [].
Proof.
  intros Hts. split; simpl.
  - intros ??? H. by apply elem_of_nil in H.
  - intros k e H. by rewrite lookup_empty in H.
  - intros k _ t d H. by apply elem_of_nil in H.
  - exact Hts.
Qed.

(** Time passing keeps the tie. *)
Lemma hist_inv_forward w w' puts :
  hist_inv w puts → weatherCache w' = weatherCache w →
  now w ≤ now w' → clock_ok w' → hist_inv w' puts.
Proof.
  intros [Hp He Hg _] Hc Hn Hk. split; [| | |done].
  - intros t k d H. specialize (Hp _ _ _ H). lia.
  - rewrite Hc. exact He.
  - rewrite Hc. intros k Hk' t d H. specialize (Hg _ Hk' _ _ H). lia.
Qed.

Lemma getCachedWeather_clock w id :
  clock_ok w →
  now w ≤ now (getCachedWeather id w).2 ∧ clock_ok (getCachedWeather id w).2.
Proof.
  intros Hk. unfold getCachedWeather.
  destruct (weatherCache w !! id) as [e|]; [|split; [simpl; lia|done]].
  run. destruct (Date_now_forward w Hk) as [Hn Hk'].
  unfold Date_now in *; simpl in *.
  destruct (now w - timestamp e >? CACHE_TTL_MS); simpl; destruct (ticks w); by simpl.
Qed.

Lemma isCacheStale_clock w id :
  clock_ok w →
  now w ≤ now (isCacheStale id w).2 ∧ clock_ok (isCacheStale id w).2.
Proof.
  intros Hk. unfold isCacheStale.
  destruct (weatherCache w !! id) as [e|]; [|split; [simpl; lia|done]].
  run. exact (Date_now_forward w Hk).
Qed.

Lemma setCachedWeather_clock w id d :
  clock_ok w →
  now w ≤ now (setCachedWeather id d w).2 ∧ clock_ok (setCachedWeather id d w).2.
Proof.
  intros Hk. unfold setCachedWeather. run.
  destruct (Date_now_forward w Hk) as [Hn Hk'].
  unfold Date_now in *; simpl in *. destruct (ticks w); by simpl.
Qed.

Lemma hist_inv_get w id puts :
  hist_inv w puts → hist_inv (getCachedWeather id w).2 puts.
Proof.
  intros Hinv. pose proof (hist_clock _ _ Hinv) as Hk.
  destruct (getCachedWeather_clock w id Hk) as [Hn Hk'].
  destruct (weatherCache w !! id) as [e|] eqn:E.
  - destruct (Z_le_gt_dec (age w e) CACHE_TTL_MS) as [Hlive|Hold].
    + destruct (getCachedWeather_live w id e E Hlive) as [_ Hc].
      by eapply hist_inv_forward.
    + destruct (getCachedWeather_expired w id e E) as [_ Hc]; [lia|].
      destruct Hinv as [Hp He Hg _]. split; [| | |done].
      * intros t k d H. specialize (Hp _ _ _ H). lia.
      * rewrite Hc. intros k e' Hl.
        apply lookup_delete_Some in Hl as [_ Hl]. by apply He.
      * rewrite Hc. intros k Hl t d H.
        apply lookup_delete_None in Hl as [<-|Hl].
        -- destruct (He _ _ E) as (_ & _ & Hlatest).
           specialize (Hlatest _ _ H). unfold age in Hold. lia.
        -- specialize (Hg _ Hl _ _ H). lia.
  - rewrite (getCachedWeather_absent w id E). done.
Qed.

Lemma hist_inv_put w id d puts :
  hist_inv w puts → hist_inv (setCachedWeather id d w).2 (puts ++ [(now w, id, d)]).
Proof.
  intros [Hp He Hg Hk].
  destruct (setCachedWeather_clock w id d Hk) as [Hn Hk'].
  pose proof (setCachedWeather_cache w id d) as Hc.
  split; [| | |done].
  - intros t k d' H. apply elem_of_app in H as [H|H].
    + specialize (Hp _ _ _ H). lia.
    + apply list_elem_of_singleton in H as [= -> -> ->]. done.
  - rewrite Hc. intros k e Hl.
    destruct (decide (id = k)) as [<-|Hne].
    + rewrite lookup_insert_eq in Hl. injection Hl as <-. simpl.
      split; [|split; [done|]].
      * apply elem_of_app. right. by apply list_elem_of_singleton.
      * intros t d' H. apply elem_of_app in H as [H|H].
        -- by eapply Hp.
        -- apply list_elem_of_singleton in H as [= -> _]. lia.
    + rewrite lookup_insert_ne in Hl by done.
      destruct (He _ _ Hl) as (Hin & Hid & Hlatest).
      split; [|split; [done|]].
      * apply elem_of_app. by left.
      * intros t d' H. apply elem_of_app in H as [H|H]; [by eapply Hlatest|].
        apply list_elem_of_singleton in H as [= _ ? _]. congruence.
  - rewrite Hc. intros k Hl t d' H.
    apply lookup_insert_None in Hl as [Hl Hne].
    apply elem_of_app in H as [H|H].
    + specialize (Hg _ Hl _ _ H). lia.
    + apply list_elem_of_singleton in H as [= _ ? _]. congruence.
Qed.

Lemma hist_inv_run ops : ∀ w puts w' puts',
  Forall op_forward ops → hist_inv w puts →
  runCache ops w puts = (w', puts') → hist_inv w' puts'.
Proof.
  induction ops as [|op ops IH]; intros w puts w' puts' Hops Hinv Hrun; simpl in Hrun.
  - by injection Hrun as <- <-.
  - inversion Hops as [|?? Hop Hops']; subst.
    eapply IH; [exact Hops'| |exact Hrun].
    destruct op as [k d|k|k|dt]; simpl.
    + by apply hist_inv_put.
    + run. pose proof (hist_inv_get w k puts Hinv) as H.
      by destruct (getCachedWeather k w).
    + run. pose proof (hist_clock _ _ Hinv) as Hk.
      destruct (isCacheStale_clock w k Hk) as [Hn Hk'].
      pose proof (isCacheStale_cache w k) as Hc.
      destruct (isCacheStale k w). simpl in *. by eapply hist_inv_forward.
    + simpl in Hop. eapply hist_inv_forward; [exact Hinv|done|simpl; lia|].
      exact (hist_clock _ _ Hinv).
Qed.

(** C3: in a state reached from the empty cache by puts under plain
    keys, gets, staleness checks and waits, [getCachedWeather] of a
    plain key returns an entry exactly when a put for the key was
    stamped within the last 300 s; the entry it returns is the stored
    one, stamped by such a put, and the cache is left as it was; an
    entry older than the TTL is deleted from the cache and the answer
    is absent. *)
Theorem getCachedWeather_spec (ops : list (CacheOp Payload)) t0 ts id w puts :
  plain_key id → Forall op_plain ops →
  Forall (Z.le 0) ts → Forall op_forward ops →
  runCache ops (initWorld t0 ts) [] = (w, puts) →
  ((getCachedWeather id w).1 = None
     ↔ ¬ ∃ t d, (t, id, d) ∈ puts ∧ now w - t ≤ CACHE_TTL_MS)
  ∧ (∀ e, (getCachedWeather id w).1 = Some e →
       weatherCache w !! id = Some e
       ∧ (timestamp e, id, data e) ∈ puts
       ∧ age w e ≤ CACHE_TTL_MS
       ∧ weatherCache (getCachedWeather id w).2 = weatherCache w)
  ∧ (∀ e, weatherCache w !! id = Some e → CACHE_TTL_MS < age w e →
       (getCachedWeather id w).1 = None
       ∧ weatherCache (getCachedWeather id w).2 = delete id (weatherCache w)).
Proof.
  intros _ _ Hts Hops Hrun.
  pose proof (hist_inv_run ops _ _ _ _ Hops (hist_inv_init t0 ts Hts) Hrun)
    as [Hp He Hg Hk].
  split; [|split].
  - destruct (weatherCache w !! id) as [e|] eqn:E.
    + destruct (He _ _ E) as (Hin & _ & Hlatest).
      destruct (Z_le_gt_dec (age w e) CACHE_TTL_MS) as [Hlive|Hold].
      * destruct (getCachedWeather_live w id e E Hlive) as [-> _].
        split; [done|]. intros Hno. exfalso. apply Hno. eauto.
      * destruct (getCachedWeather_expired w id e E) as [-> _]; [lia|].
        split; [|done]. intros _ (t & d & Hin' & Hage).
        specialize (Hlatest _ _ Hin'). unfold age in Hold. lia.
    + rewrite (getCachedWeather_absent w id E). simpl.
      split; [|done]. intros _ (t & d & Hin' & Hage).
      specialize (Hg _ E _ _ Hin'). lia.
  - intros e Hr. destruct (weatherCache w !! id) as [e'|] eqn:E.
    + destruct (Z_le_gt_dec (age w e') CACHE_TTL_MS) as [Hlive|Hold].
      * destruct (getCachedWeather_live w id e' E Hlive) as [Hr' Hc].
        rewrite Hr' in Hr. injection Hr as <-.
        destruct (He _ _ E) as (Hin & _ & _). done.
      * destruct (getCachedWeather_expired w id e' E) as [Hr' _]; [lia|].
        congruence.
    + rewrite (getCachedWeather_absent w id E) in Hr. done.
  - intros e E Hold. exact (getCachedWeather_expired w id e E Hold).
Qed.

(** C10: every key of the weather cache holds an entry whose
    [locationId] is that key; this is so for the empty cache and stays
    so across [setCachedWeather], [getCachedWeather] with its eviction,
    and [isCacheStale]. *)
Theorem cache_keyed_invariant :
  (∀ t0 ts, cache_keyed (initWorld (Payload := Payload) t0 ts))
  ∧ (∀ w id d, cache_keyed w → cache_keyed (setCachedWeather id d w).2)
  ∧ (∀ w id, cache_keyed w → cache_keyed (getCachedWeather id w).2)
  ∧ (∀ w id, cache_keyed w → cache_keyed (isCacheStale id w).2).
Proof.
  unfold cache_keyed. repeat split.
  - intros t0 ts k e. simpl. by rewrite lookup_empty.
  - intros w id d Hinv k e. rewrite setCachedWeather_cache.
    destruct (decide (id = k)) as [<-|Hne].
    + rewrite lookup_insert_eq. by intros [= <-].
    + rewrite lookup_insert_ne by done. apply Hinv.
  - intros w id Hinv k e.
    destruct (weatherCache w !! id) as [e'|] eqn:E.
    + destruct (Z_le_gt_dec (age w e') CACHE_TTL_MS) as [Hlive|Hold].
      * destruct (getCachedWeather_live w id e' E Hlive) as [_ ->]. apply Hinv.
      * destruct (getCachedWeather_expired w id e' E) as [_ ->]; [lia|].
        intros Hl. apply lookup_delete_Some in Hl as [_ Hl]. by apply Hinv.
    + rewrite (getCachedWeather_absent w id E). apply Hinv.
  - intros w id Hinv k e. rewrite isCacheStale_cache. apply Hinv.
Qed.

(** ** Refresh throttle *)

Lemma recordRefresh_record w id :
  lastRefreshTimestamp (recordRefresh id w).2 = <[id := now w]> (lastRefreshTimestamp w).
Proof. unfold recordRefresh. run. by destruct (ticks w). Qed.

Lemma recordRefresh_trace w id :
  trace (recordRefresh id w).2 = trace w ++ [EvRecordRefresh id (now w)].
Proof. unfold recordRefresh. run. by destruct (ticks w). Qed.

Lemma recordRefresh_now w id :
  now (recordRefresh id w).2 = now w + hd 0 (ticks w).
Proof. unfold recordRefresh. run. destruct (ticks w); simpl; lia. Qed.

Lemma canRefresh_value w id :
  (canRefresh id w).1 =
    match lastRefreshTimestamp w !! id with
    | None => true
    | Some t => (t =? 0) || (now w - t >? REFRESH_COOLDOWN_MS)
    end.
Proof.
  unfold canRefresh. destruct (lastRefreshTimestamp w !! id) as [t|]; [|done].
  by destruct (t =? 0).
Qed.

(** [canRefresh] only reads the clock. *)
Lemma canRefresh_frame w id :
  lastRefreshTimestamp (canRefresh id w).2 = lastRefreshTimestamp w
  ∧ trace (canRefresh id w).2 = trace w
  ∧ isRevalidating (canRefresh id w).2 = isRevalidating w
  ∧ timers (canRefresh id w).2 = timers w
  ∧ weatherCache (canRefresh id w).2 = weatherCache w
  ∧ cachedWeatherDisplay (canRefresh id w).2 = cachedWeatherDisplay w.
Proof.
  unfold canRefresh. destruct (lastRefreshTimestamp w !! id) as [t|]; [|done].
  destruct (t =? 0); [done|]. run. by destruct (ticks w).
Qed.

(** C5: for a plain key, with the clock reading more than 30 s past the
    epoch, [canRefresh] answers true exactly when the key has no throttle
    record or more than the 30 s cooldown has elapsed since the recorded
    time; [recordRefresh] records the current reading, after which
    [canRefresh] is false at once and is true again only in a state
    whose clock is more than 30 s later. *)
Theorem canRefresh_spec w id :
  plain_key id →
  REFRESH_COOLDOWN_MS < now w →
  ((canRefresh id w).1 = true
   ↔ lastRefreshTimestamp w !! id = None
     ∨ ∃ t, lastRefreshTimestamp w !! id = Some t ∧ REFRESH_COOLDOWN_MS < now w - t)
  ∧ lastRefreshTimestamp (recordRefresh id w).2 !! id = Some (now w)
  ∧ (hd 0 (ticks w) ≤ REFRESH_COOLDOWN_MS →
       (canRefresh id (recordRefresh id w).2).1 = false)
  ∧ (∀ w', lastRefreshTimestamp w' !! id = Some (now w) →
       ((canRefresh id w').1 = true ↔ REFRESH_COOLDOWN_MS < now w' - now w)
       ∧ ((canRefresh id w').1 = true → 30 * 1000 ≤ now w' - now w)).
Proof.
  intros _ Hclock.
  assert (Hlater : ∀ w', lastRefreshTimestamp w' !! id = Some (now w) →
            ((canRefresh id w').1 = true ↔ REFRESH_COOLDOWN_MS < now w' - now w)).
  { intros w' Hrec. rewrite canRefresh_value, Hrec.
    destruct (Z.eqb_spec (now w) 0) as [Hz|_].
    - unfold REFRESH_COOLDOWN_MS in *. lia.
    - simpl. rewrite Z.gtb_ltb. apply Z.ltb_lt. }
  assert (Hrec : lastRefreshTimestamp (recordRefresh id w).2 !! id = Some (now w)).
  { rewrite recordRefresh_record. apply lookup_insert_eq. }
  split; [|split; [exact Hrec|split]].
  - rewrite canRefresh_value.
    destruct (lastRefreshTimestamp w !! id) as [t|] eqn:E.
    + rewrite orb_true_iff, Z.eqb_eq, Z.gtb_ltb, Z.ltb_lt. split.
      * intros [Hz|Hlt]; right; exists t; (split; [done|lia]).
      * intros [?|(t' & [= <-] & Hlt)]; [done|by right].
    + split; [by left|done].
  - intros Htick. apply not_true_is_false. intros Hok.
    apply (Hlater _ Hrec) in Hok. rewrite recordRefresh_now in Hok. lia.
  - intros w' Hrec'. split; [by apply Hlater|].
    intros Hok. apply (Hlater _ Hrec') in Hok. unfold REFRESH_COOLDOWN_MS in Hok. lia.
Qed.

(** ** The debounced action *)

Lemma refreshAction_blocked w id :
  (canRefresh id w).1 = false → refreshAction id w = (tt, (canRefresh id w).2).
Proof.
  intros Hno. unfold refreshAction. run.
  destruct (canRefresh id w) as [ok w1]. simpl in Hno. by subst ok.
Qed.

Lemma refreshAction_allowed w id :
  (canRefresh id w).1 = true →
  refreshAction id w
  = (tt, (refreshWeather (Some id)
            (setIsRevalidating true (recordRefresh id (canRefresh id w).2).2).2).2).
Proof.
  intros Hok. unfold refreshAction. run.
  destruct (canRefresh id w) as [ok w1]. simpl in Hok. subst ok.
  by destruct (recordRefresh id w1) as [[] w2].
Qed.

(** C7: when the debounce callback runs the refresh action for a
    location, the action consults [canRefresh] first.  If the answer is
    false, no throttle record is written and [refreshWeather] is not
    called.  If it is true, the throttle record is written first and
    [refreshWeather] is then called once, for that location. *)
Theorem refreshAction_gated w id :
  let w0 := with_trace (trace w ++ [EvInvoke id (now w)]) w in
  let w' := (debounce_callback refreshAction id w).2 in
  ((canRefresh id w0).1 = false →
     trace w' = trace w0
     ∧ lastRefreshTimestamp w' = lastRefreshTimestamp w
     ∧ isRevalidating w' = isRevalidating w)
  ∧ ((canRefresh id w0).1 = true →
     trace w' = trace w0 ++ [EvRecordRefresh id (now (canRefresh id w0).2);
                            EvRefreshWeather (Some id)]
     ∧ lastRefreshTimestamp w'
       = <[id := now (canRefresh id w0).2]> (lastRefreshTimestamp w)
     ∧ isRevalidating w' = true)
  ∧ (canRefresh id w0).1 = (canRefresh id w).1
  ∧ timeoutId w' = None.
Proof.
  intros w0 w'.
  assert (Hw' : w' = with_timeoutId None (refreshAction id w0).2).
  { unfold w', debounce_callback. run. fold w0. by destruct (refreshAction id w0) as [[] ?]. }
  destruct (canRefresh_frame w0 id) as (Hr & Ht & Hi & _).
  split; [|split; [|split]].
  - intros Hno. rewrite Hw', (refreshAction_blocked _ _ Hno). simpl.
    by rewrite Ht, Hr, Hi.
  - intros Hok. rewrite Hw', (refreshAction_allowed _ _ Hok).
    unfold refreshWeather, setIsRevalidating, modify.
    cbn [snd fst trace lastRefreshTimestamp isRevalidating
         with_trace with_isRevalidating with_timeoutId].
    rewrite recordRefresh_trace, recordRefresh_record, Ht, Hr.
    split; [|done]. by rewrite <- app_assoc.
  - by rewrite !canRefresh_value.
  - by rewrite Hw'.
Qed.

(** ** Debounce *)

Lemma invocations_app (tr1 tr2 : list Event) :
  invocations (tr1 ++ tr2) = invocations tr1 ++ invocations tr2.
Proof.
  induction tr1 as [|ev tr1 IH]; [done|].
  destruct ev; simpl; by rewrite IH.
Qed.

Lemma runUntil_idle func fuel T w :
  next_due T (timers w) = None →
  runUntil func fuel T w = (true, with_clock (Z.max (now w) T) (ticks w) w).
Proof. intros H. destruct fuel; simpl; by rewrite H. Qed.

Lemma next_due_one T tm :
  next_due T [tm] = if due tm <=? T then Some tm else None.
Proof. reflexivity. Qed.

Lemma default_last_cons {A} (d d' : A) x l :
  default d (last (x :: l)) = default d' (last (x :: l)).
Proof.
  revert x. induction l as [|y l IH]; intros x; [done|].
  rewrite !last_cons_cons. apply IH.
Qed.

(** A call of the debounced function cancels the pending call, if any,
    and leaves its own pending. *)
Lemma debounced_arms wait args w :
  0 < wait →
  (timers w = [] ∨ ∃ i d a, timers w = [mkTimer i d a] ∧ timeoutId w = Some i) →
  armed wait (now w) args (debounced wait args w).2
  ∧ trace (debounced wait args w).2 = trace w.
Proof.
  intros Hwait Hq. unfold debounced, armed.
  assert (Hmax : Z.max 0 wait = wait) by lia.
  destruct Hq as [Hq|(i & d & a & Hq & Hid)].
  - destruct (timeoutId w) as [j|]; unfold clearTimeout, setTimeout; run;
      rewrite Hq, Hmax; simpl; eauto.
  - rewrite Hid. unfold clearTimeout, setTimeout. run.
    rewrite Hq, Hmax. simpl. rewrite Pos.eqb_refl. simpl. eauto.
Qed.

(** While calls keep coming less than [wait] apart, none of them runs
    the function, and the last one is the one left pending. *)
Lemma burst_armed func wait fuel : ∀ calls w t a,
  0 < wait → armed wait t a w → close_calls wait t calls →
  (burst func wait fuel calls w).1 = true
  ∧ armed wait (default (t, a) (last calls)).1 (default (t, a) (last calls)).2
          (burst func wait fuel calls w).2
  ∧ trace (burst func wait fuel calls w).2 = trace w.
Proof.
  induction calls as [|[t' a'] rest IH]; intros w t a Hwait Harm Hclose.
  - simpl. done.
  - simpl in Hclose. destruct Hclose as (Hle & Hlt & Hrest).
    destruct Harm as (Hnow & i & Hq & Hid).
    assert (Hidle : next_due t' (timers w) = None).
    { rewrite Hq, next_due_one. simpl.
      destruct (Z.leb_spec (t + wait) t'); [lia|done]. }
    set (w1 := with_clock (Z.max (now w) t') (ticks w) w).
    destruct (debounced_arms wait a' w1 Hwait) as [Harm' Htr'].
    { right. exists i, (t + wait), a. done. }
    assert (Hnow1 : now w1 = t') by (simpl; lia).
    rewrite Hnow1 in Harm'.
    destruct (IH _ t' a' Hwait Harm' Hrest) as (Hok & Hlast & Htr).
    assert (Hstep : burst func wait fuel ((t', a') :: rest) w
                    = burst func wait fuel rest (debounced wait a' w1).2).
    { simpl. run. rewrite (runUntil_idle _ _ _ _ Hidle). fold w1.
      destruct (debounced wait a' w1) as [[] w2]. simpl.
      destruct (burst func wait fuel rest w2) as [ok w3] eqn:E.
      simpl in Hok. rewrite E in Hok. simpl in Hok. by subst ok. }
    rewrite Hstep. split; [done|]. split.
    + destruct rest as [|c rest']; [done|].
      by rewrite last_cons_cons, (default_last_cons _ (t', a')).
    + by rewrite Htr, Htr'.
Qed.

(** Once the wait is over the pending call runs the function, once. *)
Lemma armed_fires func wait fuel t a T w :
  0 < wait → plain_action func → armed wait t a w → t + wait ≤ T →
  (runUntil func (S fuel) T w).1 = true
  ∧ invocations (trace (runUntil func (S fuel) T w).2)
    = invocations (trace w) ++ [(a, t + wait)]
  ∧ timers (runUntil func (S fuel) T w).2 = [].
Proof.
  intros Hwait Hplain (Hnow & i & Hq & Hid) HT.
  assert (Hdue : next_due T (timers w) = Some (mkTimer i (t + wait) a)).
  { rewrite Hq, next_due_one. simpl. destruct (Z.leb_spec (t + wait) T); [done|lia]. }
  cbn [runUntil]. rewrite Hdue. unfold fire, debounce_callback. run.
  rewrite Hq. simpl. rewrite Pos.eqb_refl. simpl.
  match goal with |- context [func a ?w0] => set (w1 := w0) end.
  destruct (Hplain a w1) as [Hq1 Htr1].
  destruct (func a w1) as [[] w2]. simpl in *.
  rewrite runUntil_idle by (simpl; by rewrite Hq1).
  simpl. rewrite Htr1, invocations_app. simpl.
  split; [done|]. split; [|done]. do 3 f_equal. lia.
Qed.

(** Before the wait is over nothing runs. *)
Lemma armed_waits func wait fuel t a T w :
  armed wait t a w → T < t + wait →
  trace (runUntil func fuel T w).2 = trace w
  ∧ timers (runUntil func fuel T w).2 = timers w.
Proof.
  intros (Hnow & i & Hq & Hid) HT.
  rewrite runUntil_idle; [done|].
  rewrite Hq, next_due_one. simpl. destruct (Z.leb_spec (t + wait) T); [lia|done].
Qed.

Lemma burst_cons func wait fuel t a rest w :
  burst func wait fuel ((t, a) :: rest) w
  = ((runUntil func fuel t w).1
     && (burst func wait fuel rest (debounced wait a (runUntil func fuel t w).2).2).1,
     (burst func wait fuel rest (debounced wait a (runUntil func fuel t w).2).2).2).
Proof.
  cbn [burst]. unfold mbind, M_bind, bind, mret, M_ret, ret.
  destruct (runUntil func fuel t w) as [ok w1]. cbn [fst snd].
  destruct (debounced wait a w1) as [[] w2]. cbn [snd].
  by destruct (burst func wait fuel rest w2).
Qed.

(** A call of the debounced function made while one call is pending
    leaves that of the new call in its place and touches nothing else. *)
Lemma debounced_replaces wait t a i n t' a' w :
  0 < wait →
  (debounced wait a' (with_clock t' (ticks w) (left_pending wait t a i n w))).2
  = left_pending wait t' a' n (Pos.succ n) w.
Proof.
  intros Hwait. unfold debounced, left_pending, clearTimeout, setTimeout.
  unfold mbind, M_bind, bind, mret, M_ret, ret, modify.
  cbn [timeoutId with_clock with_timers with_timeoutId timers nextTimerId now ticks
       weatherCache lastRefreshTimestamp cachedWeatherDisplay isRevalidating storage
       trace fst snd List.filter tid app].
  rewrite Pos.eqb_refl, (Z.max_r 0 wait) by lia. reflexivity.
Qed.

(** The first call of a burst, made while nothing is pending. *)
Lemma debounced_first wait t a w :
  0 < wait → timers w = [] →
  (debounced wait a (with_clock t (ticks w) w)).2
  = left_pending wait t a (nextTimerId w) (Pos.succ (nextTimerId w)) w.
Proof.
  intros Hwait Hq. unfold debounced, left_pending, clearTimeout, setTimeout.
  unfold mbind, M_bind, bind, mret, M_ret, ret, modify.
  cbn [timeoutId with_clock].
  destruct (timeoutId w) as [j|];
    cbn [timeoutId with_clock with_timers with_timeoutId timers nextTimerId now ticks
         weatherCache lastRefreshTimestamp cachedWeatherDisplay isRevalidating storage
         trace fst snd];
    rewrite ?Hq, (Z.max_r 0 wait) by lia; reflexivity.
Qed.

(** A burst of close calls changes nothing but the clock and the one
    pending timer: the wrapped function is not run. *)
Lemma burst_left_pending func wait fuel w : ∀ calls t a i n,
  0 < wait → close_calls wait t calls →
  ∃ i' n',
    burst func wait fuel calls (left_pending wait t a i n w)
    = (true, left_pending wait (default (t, a) (last calls)).1
               (default (t, a) (last calls)).2 i' n' w).
Proof.
  induction calls as [|[t' a'] rest IH]; intros t a i n Hwait Hclose.
  - exists i, n. reflexivity.
  - simpl in Hclose. destruct Hclose as (Hle & Hlt & Hrest).
    rewrite burst_cons.
    assert (Hidle : next_due t' (timers (left_pending wait t a i n w)) = None).
    { cbn [left_pending timers with_timeoutId with_timers]. rewrite next_due_one.
      cbn [due]. destruct (Z.leb_spec (t + wait) t'); [lia|done]. }
    rewrite (runUntil_idle _ _ _ _ Hidle). cbn [fst snd].
    change (now (left_pending wait t a i n w)) with t.
    change (ticks (left_pending wait t a i n w)) with (ticks w).
    rewrite (Z.max_r t t') by lia.
    rewrite (debounced_replaces wait t a i n t' a' w Hwait).
    assert (Hlast : default (t, a) (last ((t', a') :: rest))
                    = default (t', a') (last rest)).
    { destruct rest as [|c rest']; [done|].
      by rewrite last_cons_cons, (default_last_cons (t, a) (t', a')). }
    rewrite Hlast.
    destruct (IH t' a' n (Pos.succ n) Hwait Hrest) as (i' & n' & ->).
    by exists i', n'.
Qed.

(** Once the wait is over, the pending call runs the wrapped function
    on its arguments, once, and the loop goes idle. *)
Lemma armed_runs func wait fuel t a T w :
  0 < wait → plain_action func → armed wait t a w → t + wait ≤ T →
  runUntil func (S fuel) T w
  = (true, with_clock (Z.max (now (after_call func (t + wait) a w)) T)
             (ticks (after_call func (t + wait) a w))
             (after_call func (t + wait) a w)).
Proof.
  intros Hwait Hplain (Hnow & i & Hq & Hid) HT.
  assert (Hdue : next_due T (timers w) = Some (mkTimer i (t + wait) a)).
  { rewrite Hq, next_due_one. simpl. destruct (Z.leb_spec (t + wait) T); [done|lia]. }
  cbn [runUntil]. rewrite Hdue.
  unfold fire, debounce_callback, after_call, mbind, M_bind, bind, modify.
  cbn [tid targs due]. rewrite Hq. cbn [List.filter tid]. rewrite Pos.eqb_refl.
  cbn [negb]. rewrite Hnow, (Z.max_r t (t + wait)) by lia.
  cbn [now with_clock with_timers ticks nextTimerId trace].
  match goal with |- context [func a ?w0] => set (w1 := w0) end.
  destruct (Hplain a w1) as [Hq1 _].
  destruct (func a w1) as [[] w2]. cbn [snd] in *.
  rewrite runUntil_idle by (simpl; by rewrite Hq1).
  reflexivity.
Qed.

(** C6: a burst of one or more calls to the debounced function, each
    less than the wait after the one before, changes nothing but the
    clock and the one timer it leaves pending, that of the last call:
    the wrapped function is run for none of the calls.  Until the wait
    has elapsed since the last call nothing runs.  Once it has, the
    state is the one obtained by applying the wrapped function once, to
    the arguments of the last call, at the time the wait elapsed; the
    callback has run exactly once.  The wait is one the platform
    honours, and the wrapped function leaves the timers alone. *)
Theorem debounce_trailing_edge func wait fuel t1 a1 rest w :
  0 < wait ≤ TIMEOUT_MAX → plain_action func →
  timers w = [] → now w ≤ t1 → close_calls wait t1 rest →
  let tN := (default (t1, a1) (last rest)).1 in
  let aN := (default (t1, a1) (last rest)).2 in
  let wb := (burst func wait (S fuel) ((t1, a1) :: rest) w).2 in
  (∃ i n, wb = left_pending wait tN aN i n w)
  ∧ (∀ T, T < tN + wait →
       runUntil func (S fuel) T wb = (true, with_clock (Z.max tN T) (ticks wb) wb))
  ∧ (∀ T, tN + wait ≤ T →
       runUntil func (S fuel) T wb
       = (true, with_clock (Z.max (now (after_call func (tN + wait) aN wb)) T)
                  (ticks (after_call func (tN + wait) aN wb))
                  (after_call func (tN + wait) aN wb)))
  ∧ (∀ T, tN + wait ≤ T →
       invocations (trace (runUntil func (S fuel) T wb).2)
       = invocations (trace w) ++ [(aN, tN + wait)]).
Proof.
  intros [Hwait _] Hplain Hq Hnow Hclose tN aN wb.
  assert (Hwb : ∃ i n, wb = left_pending wait tN aN i n w).
  { unfold wb. rewrite burst_cons.
    rewrite (runUntil_idle func (S fuel) t1 w) by (by rewrite Hq). cbn [fst snd].
    rewrite (Z.max_r (now w) t1) by lia.
    rewrite (debounced_first wait t1 a1 w Hwait Hq).
    destruct (burst_left_pending func wait (S fuel) w rest t1 a1 (nextTimerId w)
                (Pos.succ (nextTimerId w)) Hwait Hclose) as (i & n & ->).
    by exists i, n. }
  destruct Hwb as (i & n & Hwb).
  assert (Harm : armed wait tN aN wb).
  { rewrite Hwb. split; [done|]. by exists i. }
  split; [by exists i, n|]. split; [|split].
  - intros T HT. rewrite runUntil_idle.
    + by rewrite Hwb.
    + rewrite Hwb. cbn [left_pending timers with_timeoutId with_timers].
      rewrite next_due_one. cbn [due]. destruct (Z.leb_spec (tN + wait) T); [lia|done].
  - intros T HT. exact (armed_runs func wait fuel tN aN T wb Hwait Hplain Harm HT).
  - intros T HT.
    destruct (armed_fires func wait fuel tN aN T wb Hwait Hplain Harm HT) as (_ & Hinv & _).
    rewrite Hinv. by rewrite Hwb.
Qed.

(** ** Last viewed location *)

Lemma truthy_spec (s : string) : truthy s = true ↔ s ≠ "".
Proof.
  unfold truthy. rewrite negb_true_iff.
  destruct (String.eqb_spec s ""); split; congruence.
Qed.

Lemma truthy_false (s : string) : truthy s = false ↔ s = "".
Proof.
  unfold truthy. rewrite negb_false_iff. apply String.eqb_eq.
Qed.

(** The three tests of [initializeLocation] decide [still_resolves]. *)
Lemma still_resolves_tests p (lastLocation : string) :
  existsb (fun loc => String.eqb (loc_id loc) lastLocation) (savedLocations p)
  || (String.eqb lastLocation "current-location"
      && bool_decide (is_Some (currentLocation p)))
  || match homeLocation p with
     | Some h => String.eqb lastLocation (loc_id h)
     | None => false
     end = true
  ↔ still_resolves p lastLocation.
Proof.
  unfold still_resolves.
  rewrite !orb_true_iff, andb_true_iff, existsb_exists, bool_decide_eq_true.
  rewrite String.eqb_eq.
  split.
  - intros [[(loc & Hin & Heq)|Hcur]|Hhome].
    + left. exists loc. apply String.eqb_eq in Heq.
      split; [by apply list_elem_of_In|done].
    + right. by left.
    + right. right. destruct (homeLocation p) as [h|]; [|done].
      apply String.eqb_eq in Hhome. eauto.
  - intros [(loc & Hin & Heq)|[Hcur|(h & Hh & Heq)]].
    + left. left. exists loc. split; [by apply list_elem_of_In|].
      by apply String.eqb_eq.
    + left. by right.
    + right. rewrite Hh. by apply String.eqb_eq.
Qed.

Lemma fallback_location_eq p :
  match currentLocation p with
  | Some _ => Some "current-location"%string
  | None => loc_id <$> homeLocation p
  end = fallback_location p.
Proof.
  unfold fallback_location.
  destruct (currentLocation p); [done|]. by destruct (homeLocation p).
Qed.

(** C8: with no active location set, [initializeLocation] reads the
    stored last location and passes it to [setWeatherLocationId] when it
    is a non-empty id that still resolves (a saved location, the
    [current-location] pseudo-id with a device location present, or the
    home location); in every other case it passes the device pseudo-id
    if a device location is present, else the home id, else makes no
    call.  With an active location set it makes no call.  The save
    effect writes a non-empty active location to storage under
    [LAST_LOCATION_KEY] and writes nothing for an empty one. *)
Theorem initializeLocation_spec p w :
  (initializeLocation p w).2 = w
  ∧ (weatherLocationId p ≠ "" → (initializeLocation p w).1 = None)
  ∧ (weatherLocationId p = "" →
       (∀ lastLocation,
          storage w !! LAST_LOCATION_KEY = Some lastLocation →
          lastLocation ≠ "" → still_resolves p lastLocation →
          (initializeLocation p w).1 = Some lastLocation)
       ∧ ((∀ lastLocation,
             storage w !! LAST_LOCATION_KEY = Some lastLocation →
             lastLocation ≠ "" → ¬ still_resolves p lastLocation) →
          (initializeLocation p w).1 = fallback_location p))
  ∧ (weatherLocationId p ≠ "" →
       storage (saveLocationEffect p w).2
       = <[LAST_LOCATION_KEY := weatherLocationId p]> (storage w))
  ∧ (weatherLocationId p = "" → (saveLocationEffect p w).2 = w).
Proof.
  split; [|split; [|split; [|split]]].
  - unfold initializeLocation.
    destruct (negb (truthy (weatherLocationId p))); [|done].
    destruct (storage w !! LAST_LOCATION_KEY) as [l|]; [|done].
    destruct (truthy l); [|done].
    by match goal with |- context [if ?b then _ else _] => destruct b end.
  - intros Hset. apply truthy_spec in Hset.
    unfold initializeLocation. by rewrite Hset.
  - intros Hunset. apply truthy_false in Hunset.
    unfold initializeLocation. rewrite Hunset. simpl.
    rewrite fallback_location_eq. split.
    + intros l Hl Hne Hres. rewrite Hl.
      apply truthy_spec in Hne. rewrite Hne.
      apply still_resolves_tests in Hres. by rewrite Hres.
    + intros Hnone.
      destruct (storage w !! LAST_LOCATION_KEY) as [l|] eqn:Hl; [|done].
      destruct (truthy l) eqn:Hne; [|done].
      apply truthy_spec in Hne. specialize (Hnone l eq_refl Hne).
      match goal with |- context [if ?b then _ else _] => destruct b eqn:Hb end;
        [|done].
      apply still_resolves_tests in Hb. contradiction.
  - intros Hset. apply truthy_spec in Hset.
    unfold saveLocationEffect. by rewrite Hset.
  - intros Hunset. apply truthy_false in Hunset.
    unfold saveLocationEffect. by rewrite Hunset.
Qed.

(** ** What is rendered *)

Lemma displayWeather_none p w :
  displayWeather p w = None ↔ cachedWeatherDisplay w = None ∧ weather p = None.
Proof.
  unfold displayWeather. destruct (cachedWeatherDisplay w) as [d|].
  - split; [done|by intros [? _]].
  - split; [done|by intros [_ ?]].
Qed.

(** C9: the error view is rendered exactly when a fetch error is present
    and there is neither a payload held for display nor a live payload,
    and it then shows the error as it is; whenever a payload is
    available the forecast view shows it, the held payload first. *)
Theorem render_error_iff p w :
  ((∃ message, render p w = ErrorView message)
   ↔ weatherError p ≠ "" ∧ cachedWeatherDisplay w = None ∧ weather p = None)
  ∧ (∀ message, render p w = ErrorView message → message = weatherError p)
  ∧ (∀ d, cachedWeatherDisplay w = Some d →
       render p w = ForecastView (Some d) (isRevalidating w))
  ∧ (∀ d, cachedWeatherDisplay w = None → weather p = Some d →
       render p w = ForecastView (Some d) (isRevalidating w)).
Proof.
  unfold render. split; [|split; [|split]].
  - rewrite <- truthy_spec, <- displayWeather_none.
    destruct (truthy (weatherError p)); simpl.
    + destruct (displayWeather p w) as [d|] eqn:E; simpl.
      * split; [by intros [? ?]|by intros (_ & ?)].
      * split; [done|eauto].
    + split; [by intros [? ?]|by intros [? _]].
  - intros message.
    destruct (truthy (weatherError p)
              && negb (bool_decide (is_Some (displayWeather p w)))); [|done].
    by intros [= <-].
  - intros d Hd. unfold displayWeather. rewrite Hd.
    rewrite bool_decide_eq_true_2 by eauto. by rewrite andb_false_r.
  - intros d Hc Hw. unfold displayWeather. rewrite Hc, Hw.
    rewrite bool_decide_eq_true_2 by eauto. by rewrite andb_false_r.
Qed.

(** ** The freshness controller *)

Lemma effectLocationId_deliver (a : Arrival Payload) p :
  effectLocationId (deliver a p) = effectLocationId p.
Proof. reflexivity. Qed.

(** C1, as the code has it: a payload that arrives while the active
    location is [T], a plain key, is stored in the cache under [T],
    stamped with the current clock reading, whichever location it was
    fetched for; the entry of every other key, the one it was fetched
    for included, is left as it was; the displayed payload is replaced
    by the arriving payload and the revalidating flag is cleared. *)
Theorem weatherArrived_stores_under_active (a : Arrival Payload) p w :
  plain_key (effectLocationId p) →
  fetchedFor a ≠ effectLocationId p →
  let w' := (weatherArrivedEffect (deliver a p) w).2 in
  weatherCache w' !! effectLocationId p
    = Some (mkCached (payload a) (now w) (effectLocationId p))
  ∧ weatherCache w' !! fetchedFor a = weatherCache w !! fetchedFor a
  ∧ (∀ k, k ≠ effectLocationId p → weatherCache w' !! k = weatherCache w !! k)
  ∧ cachedWeatherDisplay w' = Some (payload a)
  ∧ isRevalidating w' = false.
Proof.
  intros _ Hother w'.
  assert (Hc : weatherCache w'
               = <[effectLocationId p := mkCached (payload a) (now w) (effectLocationId p)]>
                   (weatherCache w)).
  { unfold w', weatherArrivedEffect. simpl weather. rewrite effectLocationId_deliver.
    unfold setCachedWeather, setCachedWeatherDisplay, setIsRevalidating. run.
    by destruct (ticks w). }
  rewrite Hc. split; [apply lookup_insert_eq|]. split; [by apply lookup_insert_ne|].
  split; [intros k Hk; by apply lookup_insert_ne|].
  unfold w', weatherArrivedEffect. simpl weather.
  unfold setCachedWeather, setCachedWeatherDisplay, setIsRevalidating. run.
  by destruct (ticks w).
Qed.

Lemma recordRefresh_frame w id :
  timers (recordRefresh id w).2 = timers w
  ∧ timeoutId (recordRefresh id w).2 = timeoutId w
  ∧ weatherCache (recordRefresh id w).2 = weatherCache w
  ∧ cachedWeatherDisplay (recordRefresh id w).2 = cachedWeatherDisplay w
  ∧ isRevalidating (recordRefresh id w).2 = isRevalidating w.
Proof. unfold recordRefresh. run. by destruct (ticks w). Qed.

Lemma canRefresh_timeoutId w id : timeoutId (canRefresh id w).2 = timeoutId w.
Proof.
  unfold canRefresh. destruct (lastRefreshTimestamp w !! id) as [t|]; [|done].
  destruct (t =? 0); [done|]. run. by destruct (ticks w).
Qed.

(** What [getCachedWeather] does to an entry older than the TTL, as an
    equation. *)
Lemma getCachedWeather_evicts w id e :
  weatherCache w !! id = Some e → CACHE_TTL_MS < age w e →
  getCachedWeather id w
  = (None, with_weatherCache (delete id (weatherCache (Date_now w).2)) (Date_now w).2).
Proof.
  intros H Hage. unfold getCachedWeather, age in *. rewrite H. run.
  destruct (Z.gtb_spec (now w - timestamp e) CACHE_TTL_MS) as [_|Hle]; [|lia].
  reflexivity.
Qed.

Lemma Date_now_frame w :
  timers (Date_now w).2 = timers w
  ∧ timeoutId (Date_now w).2 = timeoutId w
  ∧ weatherCache (Date_now w).2 = weatherCache w
  ∧ cachedWeatherDisplay (Date_now w).2 = cachedWeatherDisplay w
  ∧ isRevalidating (Date_now w).2 = isRevalidating w.
Proof. unfold Date_now. simpl. by destruct (ticks w). Qed.

(** The direct refresh of the branch for a missing entry touches
    neither the cache, nor the display, nor the timers. *)
Lemma direct_refresh_frame id arg w :
  let w' := ((ok ← canRefresh id;
              if ok : bool then recordRefresh id ;; refreshWeather arg else ret tt) w).2 in
  timers w' = timers w
  ∧ timeoutId w' = timeoutId w
  ∧ weatherCache w' = weatherCache w
  ∧ cachedWeatherDisplay w' = cachedWeatherDisplay w
  ∧ isRevalidating w' = isRevalidating w.
Proof.
  unfold mbind, M_bind, bind.
  destruct (canRefresh_frame w id) as (_ & _ & Hr2 & Hq2 & Hc2 & Hd2).
  pose proof (canRefresh_timeoutId w id) as Hi2.
  destruct (canRefresh id w) as [ok w2]. simpl in Hr2, Hq2, Hc2, Hd2, Hi2.
  destruct ok.
  - destruct (recordRefresh_frame w2 id) as (Hq3 & Hi3 & Hc3 & Hd3 & Hr3).
    destruct (recordRefresh id w2) as [[] w3]. simpl in Hq3, Hi3, Hc3, Hd3, Hr3.
    unfold refreshWeather, modify. simpl.
    rewrite Hd3, Hr3, Hc3, Hq3, Hi3, Hd2, Hr2, Hc2, Hq2, Hi2. done.
  - unfold mret, M_ret, ret. simpl. done.
Qed.

(** An entry older than the TTL sends the effect down the branch for a
    missing entry. *)
Lemma expired_entry_takes_missing_branch p w e :
  weatherCache w !! effectLocationId p = Some e → CACHE_TTL_MS < age w e →
  let w' := (staleWhileRevalidateEffect p w).2 in
  cachedWeatherDisplay w' = None
  ∧ isRevalidating w' = true
  ∧ weatherCache w' !! effectLocationId p = None
  ∧ timers w' = timers w
  ∧ timeoutId w' = timeoutId w.
Proof.
  intros He Hage w'.
  set (id := effectLocationId p) in *.
  set (w0 := with_isRevalidating true
               (with_cachedWeatherDisplay None
                  (with_weatherCache (delete id (weatherCache (Date_now w).2))
                     (Date_now w).2))).
  assert (Heq : staleWhileRevalidateEffect p w
                = (ok ← canRefresh id;
                   if ok : bool
                   then recordRefresh id ;;
                        refreshWeather (if String.eqb id "default" then None else Some id)
                   else ret tt) w0).
  { unfold staleWhileRevalidateEffect. fold id.
    unfold mbind at 1, M_bind at 1, bind at 1.
    by rewrite (getCachedWeather_evicts w _ e He Hage). }
  unfold w'. rewrite Heq.
  destruct (direct_refresh_frame id
              (if String.eqb id "default" then None else Some id) w0)
    as (Hq & Hi & Hc & Hd & Hr).
  destruct (Date_now_frame w) as (Hq0 & Hi0 & _).
  rewrite Hq, Hi, Hc, Hd, Hr. subst w0. simpl.
  rewrite lookup_delete_eq. done.
Qed.

(** C2, as the code has it: when the location changes to one whose
    cache entry is older than the TTL, [getCachedWeather] evicts the
    entry and answers null, so the effect takes the branch for a
    missing entry: the display is cleared, the revalidating flag is
    set, no debounced call is scheduled, and the outcome the
    specification describes does not hold. *)
Theorem stale_switch_clears_display p w e :
  weatherCache w !! effectLocationId p = Some e → CACHE_TTL_MS < age w e →
  let w' := (staleWhileRevalidateEffect p w).2 in
  cachedWeatherDisplay w' = None
  ∧ isRevalidating w' = true
  ∧ weatherCache w' !! effectLocationId p = None
  ∧ timers w' = timers w
  ∧ timeoutId w' = timeoutId w
  ∧ ¬ stale_switch_per_spec p e w.
Proof.
  intros He Hage w'.
  destruct (expired_entry_takes_missing_branch p w e He Hage) as (Hd & Hr & Hc & Hq & Hi).
  fold w' in Hd, Hr, Hc, Hq, Hi.
  repeat (split; [done|]).
  unfold stale_switch_per_spec. fold w'. rewrite Hd. by intros [? _].
Qed.

(** The debounced branch of the effect is taken only when the clock
    moves past the TTL between the read of [getCachedWeather] and the
    read of [isCacheStale]. *)
Lemma debounced_branch_needs_tick p w :
  timers (staleWhileRevalidateEffect p w).2 ≠ timers w →
  ∃ e d ds, weatherCache w !! effectLocationId p = Some e
    ∧ ticks w = d :: ds
    ∧ age w e ≤ CACHE_TTL_MS < age w e + d.
Proof.
  set (id := effectLocationId p).
  destruct (weatherCache w !! id) as [e|] eqn:E.
  - destruct (Z_le_gt_dec (age w e) CACHE_TTL_MS) as [Hlive|Hold].
    + unfold staleWhileRevalidateEffect. fold id.
      unfold mbind, M_bind, bind, getCachedWeather. rewrite E.
      unfold mbind, M_bind, bind, Date_now, age in *.
      destruct (Z.gtb_spec (now w - timestamp e) CACHE_TTL_MS) as [Hgt|_]; [lia|].
      unfold mret, M_ret, ret, setCachedWeatherDisplay, modify, isCacheStale.
      destruct (ticks w) as [|d ds] eqn:Et; simpl; rewrite E; simpl.
      * unfold mbind, M_bind, bind, Date_now. simpl.
        destruct (Z.gtb_spec (now w - timestamp e) CACHE_TTL_MS) as [Hgt|_]; [lia|].
        rewrite Et. simpl. done.
      * unfold mbind, M_bind, bind, Date_now. simpl.
        destruct (Z.gtb_spec (now w + d - timestamp e) CACHE_TTL_MS) as [Hgt|Hle].
        -- intros _. exists e, d, ds. repeat split; [lia|lia].
        -- destruct ds; simpl; done.
    + intros Hq. exfalso. apply Hq.
      by destruct (expired_entry_takes_missing_branch p w e E) as (_ & _ & _ & ? & _); [lia|].
  - intros Hq. exfalso. apply Hq.
    unfold staleWhileRevalidateEffect. fold id.
    unfold mbind at 1, M_bind at 1, bind at 1.
    rewrite (getCachedWeather_absent w id E).
    match goal with |- timers (?c ?w0).2 = _ =>
      change (c w0) with
        ((ok ← canRefresh id;
          if ok : bool
          then recordRefresh id ;;
               refreshWeather (if String.eqb id "default" then None else Some id)
          else ret tt)
           (with_isRevalidating true (with_cachedWeatherDisplay None w)))
    end.
    by destruct (direct_refresh_frame id
                (if String.eqb id "default" then None else Some id)
                (with_isRevalidating true (with_cachedWeatherDisplay None w)))
      as (-> & _).
Qed.

(** The refresh action of the page is a plain action. *)
Lemma refreshAction_plain : plain_action (refreshAction (Payload := Payload)).
Proof.
  intros a w.
  destruct (canRefresh_frame w a) as (_ & Ht & _ & Hq & _).
  destruct ((canRefresh a w).1) eqn:Hok.
  - rewrite (refreshAction_allowed _ _ Hok).
    unfold refreshWeather, setIsRevalidating, modify.
    cbn [snd fst trace timers with_trace with_isRevalidating].
    destruct (recordRefresh_frame (canRefresh a w).2 a) as (-> & _).
    rewrite recordRefresh_trace, Ht, Hq, !invocations_app. simpl.
    by rewrite !app_nil_r.
  - rewrite (refreshAction_blocked _ _ Hok). simpl. by rewrite Ht, Hq.
Qed.

End Properties.

(** * Properties of the rest of the plugin *)

Section MoreProperties.

Context {Payload : Type}.

Implicit Types (w : World Payload) (p : Props Payload) (id : string).

Ltac run :=
  unfold mbind, M_bind, bind, mret, M_ret, ret, modify in *; simpl in *.

(** ** Weather icons *)

Lemma WEATHER_ICON_MAP_values (prefix key : string) :
  WEATHER_ICON_MAP !! prefix = Some key →
  key = "Sun"%string ∨ key = "CloudSun"%string ∨ key = "Cloud"%string
  ∨ key = "CloudRain"%string.
Proof.
  intros H. apply elem_of_list_to_map_2 in H.
  repeat (apply elem_of_cons in H as [[= _ <-]|H]; [tauto|]).
  by apply elem_of_nil in H.
Qed.

Lemma getWeatherIconKey_cases (icon : option string) :
  getWeatherIconKey icon = "Sun"%string ∨ getWeatherIconKey icon = "CloudSun"%string
  ∨ getWeatherIconKey icon = "Cloud"%string ∨ getWeatherIconKey icon = "CloudRain"%string.
Proof.
  unfold getWeatherIconKey. destruct icon as [code|]; [|tauto].
  destruct (truthy code); simpl; [|tauto].
  destruct (WEATHER_ICON_MAP !! String.substring 0 2 code) as [key|] eqn:E; [|tauto].
  destruct (WEATHER_ICON_MAP_values _ _ E) as [-> | [-> | [-> | ->]]]; simpl; tauto.
Qed.

(** X1: [getWeatherIconKey] always answers one of the four names the
    page has a component for, so the page's [getWeatherIcon] finds its
    component in [iconComponents] and never needs its fallback. *)
Theorem getWeatherIconKey_resolves (icon : option string) :
  getWeatherIconKey icon ∈ ["Sun"; "CloudSun"; "Cloud"; "CloudRain"]%string
  ∧ iconComponents !! getWeatherIconKey icon = Some (getWeatherIcon icon).
Proof.
  unfold getWeatherIcon.
  destruct (getWeatherIconKey_cases icon) as [-> | [-> | [-> | ->]]];
    (split; [set_solver | reflexivity]).
Qed.

(** X2: the key depends on the first two characters of the icon code
    only (the day or night suffix is ignored); a missing code, and a
    code of fewer than two characters, give ["Cloud"]. *)
Theorem getWeatherIconKey_prefix :
  (∀ c1 c2 rest,
     getWeatherIconKey (Some (String c1 (String c2 rest)))
     = getWeatherIconKey (Some (String c1 (String c2 EmptyString))))
  ∧ getWeatherIconKey None = "Cloud"%string
  ∧ (∀ code, (String.length code < 2)%nat →
       getWeatherIconKey (Some code) = "Cloud"%string).
Proof.
  split; [|split].
  - intros c1 c2 rest. unfold getWeatherIconKey. simpl.
    by destruct rest.
  - reflexivity.
  - intros code Hlen. destruct code as [|c1 [|c2 rest]]; simpl in Hlen; try lia.
    + reflexivity.
    + unfold getWeatherIconKey. simpl.
      destruct (WEATHER_ICON_MAP !! String c1 EmptyString) as [key|] eqn:E; [|done].
      apply elem_of_list_to_map_2 in E.
      repeat (apply elem_of_cons in E as [[= ]|E]).
      by apply elem_of_nil in E.
Qed.

(** X3: on the icon codes of the table followed by [d] or [n], the
    page without the cache picks the same component as the page with
    it, except for the codes that start with [11], where the first
    shows [Cloud] and the second [CloudRain]. *)
Theorem getWeatherIcon_variants (prefix key suffix : string) :
  WEATHER_ICON_MAP !! prefix = Some key →
  suffix = "d"%string ∨ suffix = "n"%string →
  (prefix ≠ "11"%string →
     IndexTsx.getWeatherIcon (Some (prefix +:+ suffix))
     = getWeatherIcon (Some (prefix +:+ suffix)))
  ∧ (prefix = "11"%string →
     IndexTsx.getWeatherIcon (Some (prefix +:+ suffix)) = Cloud
     ∧ getWeatherIcon (Some (prefix +:+ suffix)) = CloudRain).
Proof.
  intros H Hs. apply elem_of_list_to_map_2 in H.
  repeat (apply elem_of_cons in H as [[= -> ->]|H];
          [destruct Hs as [-> | ->]; split; intros Hp; try done; by vm_compute|]).
  by apply elem_of_nil in H.
Qed.

(** ** Cooldown feedback *)

Lemma getRefreshCooldownRemaining_value w id :
  (getRefreshCooldownRemaining id w).1 =
    match lastRefreshTimestamp w !! id with
    | None => 0
    | Some t => if t =? 0 then 0 else Z.max 0 (REFRESH_COOLDOWN_MS - (now w - t))
    end.
Proof.
  unfold getRefreshCooldownRemaining.
  destruct (lastRefreshTimestamp w !! id) as [t|]; [|done].
  by destruct (t =? 0).
Qed.

(** X4: for a plain key, the remaining cooldown is never negative, is
    [0] for a key without a record, and is at most the cooldown when
    the record is not in the future; the call changes neither map. *)
Theorem getRefreshCooldownRemaining_bounds w id :
  plain_key id →
  0 ≤ (getRefreshCooldownRemaining id w).1
  ∧ (lastRefreshTimestamp w !! id = None → (getRefreshCooldownRemaining id w).1 = 0)
  ∧ (∀ t, lastRefreshTimestamp w !! id = Some t → t ≤ now w →
       (getRefreshCooldownRemaining id w).1 ≤ REFRESH_COOLDOWN_MS)
  ∧ lastRefreshTimestamp (getRefreshCooldownRemaining id w).2 = lastRefreshTimestamp w
  ∧ weatherCache (getRefreshCooldownRemaining id w).2 = weatherCache w.
Proof.
  intros _. rewrite getRefreshCooldownRemaining_value.
  split; [|split; [|split]].
  - destruct (lastRefreshTimestamp w !! id) as [t|]; [|lia].
    destruct (t =? 0); lia.
  - by intros ->.
  - intros t -> Ht. unfold REFRESH_COOLDOWN_MS. destruct (t =? 0); lia.
  - unfold getRefreshCooldownRemaining.
    destruct (lastRefreshTimestamp w !! id) as [t|]; [|done].
    destruct (t =? 0); [done|]. run. unfold Date_now. simpl. by destruct (ticks w).
Qed.

(** X5: whenever [canRefresh] allows a refresh the remaining cooldown is
    [0]; the converse fails at one instant only: the remaining cooldown
    is [0] while [canRefresh] still refuses exactly when the elapsed
    time equals the cooldown. *)
Theorem cooldown_remaining_vs_canRefresh w id :
  ((canRefresh id w).1 = true → (getRefreshCooldownRemaining id w).1 = 0)
  ∧ ((getRefreshCooldownRemaining id w).1 = 0 ∧ (canRefresh id w).1 = false
     ↔ ∃ t, lastRefreshTimestamp w !! id = Some t ∧ t ≠ 0
            ∧ now w - t = REFRESH_COOLDOWN_MS).
Proof.
  rewrite getRefreshCooldownRemaining_value, canRefresh_value.
  destruct (lastRefreshTimestamp w !! id) as [t|] eqn:E.
  - destruct (Z.eqb_spec t 0) as [Hz|Hnz]; simpl.
    + split; [done|]. split; [by intros [_ ?]|].
      intros (t' & [= <-] & ? & _). done.
    + rewrite Z.gtb_ltb. destruct (Z.ltb_spec REFRESH_COOLDOWN_MS (now w - t)).
      * split; [lia|]. split; [by intros [_ ?]|].
        intros (t' & [= <-] & _ & ?). lia.
      * split; [done|]. split.
        -- intros [Hr _]. exists t. repeat split; [done|lia].
        -- intros (t' & [= <-] & _ & ?). split; [lia|done].
  - split; [done|]. split; [by intros [_ ?]|by intros (? & ? & _)].
Qed.

(** ** Staleness and absence *)

(** X6: at one clock reading [isCacheStale] answers true exactly when
    [getCachedWeather] answers null: an entry is never stale yet still
    returned. *)
Theorem isCacheStale_iff_absent w id :
  (isCacheStale id w).1 = true ↔ (getCachedWeather id w).1 = None.
Proof.
  unfold isCacheStale.
  destruct (weatherCache w !! id) as [e|] eqn:E.
  - run. rewrite Z.gtb_ltb, Z.ltb_lt.
    destruct (Z_le_gt_dec (age w e) CACHE_TTL_MS) as [Hlive|Hold].
    + destruct (getCachedWeather_live w id e E Hlive) as [-> _].
      unfold age in Hlive. split; [lia|done].
    + destruct (getCachedWeather_expired w id e E) as [-> _]; [lia|].
      unfold age in Hold. split; [done|lia].
  - by rewrite (getCachedWeather_absent w id E).
Qed.

(** ** The two branches of the stale-while-revalidate effect *)

(** The throttled call both refresh paths end in. *)
Local Abbreviation gate id arg :=
  (ok ← canRefresh id;
   if ok : bool then recordRefresh id ;; refreshWeather arg else ret tt).

Lemma gate_blocked id arg w :
  (canRefresh id w).1 = false → gate id arg w = (tt, (canRefresh id w).2).
Proof.
  intros Hno. unfold mbind, M_bind, bind.
  destruct (canRefresh id w) as [ok w1]. simpl in Hno. by subst ok.
Qed.

Lemma gate_allowed id arg w :
  (canRefresh id w).1 = true →
  gate id arg w = (tt, (refreshWeather arg (recordRefresh id (canRefresh id w).2).2).2).
Proof.
  intros Hok. unfold mbind, M_bind, bind.
  destruct (canRefresh id w) as [ok w1]. simpl in Hok. subst ok.
  cbn [snd]. destruct (recordRefresh id w1) as [[] w2]. reflexivity.
Qed.

Lemma staleWhileRevalidateEffect_uncached p w :
  weatherCache w !! effectLocationId p = None →
  staleWhileRevalidateEffect p w
  = gate (effectLocationId p) (directRefreshArg p)
      (with_isRevalidating true (with_cachedWeatherDisplay None w)).
Proof.
  intros E. unfold staleWhileRevalidateEffect.
  unfold mbind at 1, M_bind at 1, bind at 1.
  by rewrite (getCachedWeather_absent w _ E).
Qed.

Lemma getCachedWeather_returns w id e :
  weatherCache w !! id = Some e → age w e ≤ CACHE_TTL_MS →
  getCachedWeather id w = (Some e, (Date_now w).2).
Proof.
  intros H Hage. unfold getCachedWeather, age in *. rewrite H.
  unfold mbind, M_bind, bind. simpl.
  destruct (Z.gtb_spec (now w - timestamp e) CACHE_TTL_MS) as [Hgt|_]; [lia|].
  reflexivity.
Qed.

Lemma Date_now_next w : now (Date_now w).2 = now w + hd 0 (ticks w).
Proof. unfold Date_now. simpl. destruct (ticks w); simpl; lia. Qed.

Lemma Date_now_rest w :
  lastRefreshTimestamp (Date_now w).2 = lastRefreshTimestamp w
  ∧ trace (Date_now w).2 = trace w
  ∧ storage (Date_now w).2 = storage w
  ∧ nextTimerId (Date_now w).2 = nextTimerId w.
Proof. unfold Date_now. simpl. by destruct (ticks w). Qed.

Lemma saveLocationEffect_frame p w :
  weatherCache (saveLocationEffect p w).2 = weatherCache w
  ∧ lastRefreshTimestamp (saveLocationEffect p w).2 = lastRefreshTimestamp w
  ∧ trace (saveLocationEffect p w).2 = trace w
  ∧ timers (saveLocationEffect p w).2 = timers w
  ∧ now (saveLocationEffect p w).2 = now w
  ∧ ticks (saveLocationEffect p w).2 = ticks w
  ∧ isRevalidating (saveLocationEffect p w).2 = isRevalidating w
  ∧ cachedWeatherDisplay (saveLocationEffect p w).2 = cachedWeatherDisplay w.
Proof. unfold saveLocationEffect. by destruct (truthy (weatherLocationId p)). Qed.

(** With no payload at hand the arrival effect does nothing, so a
    change of location ends with the stale-while-revalidate effect. *)
Lemma onLocationChange_no_weather p w :
  weather p = None →
  onLocationChange p w = (tt, (staleWhileRevalidateEffect p (saveLocationEffect p w).2).2).
Proof.
  intros Hw. unfold onLocationChange, mbind, M_bind, bind.
  destruct (saveLocationEffect p w) as [[] ws]. cbn [snd].
  destruct (staleWhileRevalidateEffect p ws) as [[] w1]. cbn [snd].
  unfold weatherArrivedEffect. by rewrite Hw.
Qed.

(** With a payload at hand the arrival effect runs last. *)
Lemma onLocationChange_weather p w :
  (onLocationChange p w).2
  = (weatherArrivedEffect p (staleWhileRevalidateEffect p (saveLocationEffect p w).2).2).2.
Proof.
  unfold onLocationChange, mbind, M_bind, bind.
  destruct (saveLocationEffect p w) as [[] ws]. cbn [snd].
  by destruct (staleWhileRevalidateEffect p ws) as [[] w1].
Qed.


(** An entry within the TTL at both clock reads sends the effect down
    the branch that shows it and stops. *)
Lemma staleWhileRevalidateEffect_fresh p w e :
  weatherCache w !! effectLocationId p = Some e →
  age w e ≤ CACHE_TTL_MS → age w e + hd 0 (ticks w) ≤ CACHE_TTL_MS →
  staleWhileRevalidateEffect p w
  = (tt, (Date_now (with_cachedWeatherDisplay (Some (data e)) (Date_now w).2)).2).
Proof.
  intros E Hage Hage'. set (id := effectLocationId p) in *.
  set (w1 := with_cachedWeatherDisplay (Some (data e)) (Date_now w).2).
  destruct (Date_now_frame w) as (_ & _ & Hc & _).
  assert (E1 : weatherCache w1 !! id = Some e)
    by (unfold w1; cbn [weatherCache with_cachedWeatherDisplay]; by rewrite Hc).
  unfold staleWhileRevalidateEffect. fold id.
  unfold mbind at 1, M_bind at 1, bind at 1.
  rewrite (getCachedWeather_returns w id e E Hage).
  unfold setCachedWeatherDisplay, mbind, M_bind, bind, modify. fold w1.
  unfold isCacheStale. rewrite E1.
  unfold mbind, M_bind, bind, mret, M_ret, ret.
  assert (Hnow : (Date_now w1).1 = now w + hd 0 (ticks w)).
  { change ((Date_now w1).1) with (now (Date_now w).2). apply Date_now_next. }
  destruct (Date_now w1) as [t w2]. simpl in Hnow. subst t.
  unfold age in Hage'.
  by destruct (Z.gtb_spec (now w + hd 0 (ticks w) - timestamp e) CACHE_TTL_MS);
    [lia|].
Qed.

(** X8: when the active location changes to one, a plain key, whose
    cache entry is within the TTL at both clock reads while the host
    holds no payload,
    the effects run by the change display the payload of the entry,
    and save the location if it is set; nothing else happens: no fetch,
    no throttle record, no timer, and the cache and the revalidating
    flag are as they were. *)
Theorem switch_to_fresh p w e :
  plain_key (effectLocationId p) →
  weather p = None →
  weatherCache w !! effectLocationId p = Some e →
  age w e ≤ CACHE_TTL_MS → age w e + hd 0 (ticks w) ≤ CACHE_TTL_MS →
  let w' := (onLocationChange p w).2 in
  cachedWeatherDisplay w' = Some (data e)
  ∧ trace w' = trace w
  ∧ lastRefreshTimestamp w' = lastRefreshTimestamp w
  ∧ timers w' = timers w
  ∧ weatherCache w' = weatherCache w
  ∧ isRevalidating w' = isRevalidating w
  ∧ storage w' = storage (saveLocationEffect p w).2.
Proof.
  intros _ Hweather E Hage Hage' w'.
  destruct (saveLocationEffect_frame p w) as (Hcs & Hls & Hts & Hqs & Hns & Hks & Hrs & _).
  set (ws := (saveLocationEffect p w).2) in *.
  assert (Es : weatherCache ws !! effectLocationId p = Some e) by (by rewrite Hcs).
  assert (Has : age ws e ≤ CACHE_TTL_MS) by (unfold age in *; by rewrite Hns).
  assert (Has' : age ws e + hd 0 (ticks ws) ≤ CACHE_TTL_MS)
    by (unfold age in *; by rewrite Hns, Hks).
  unfold w'. rewrite (onLocationChange_no_weather p w Hweather). cbn [snd]. fold ws.
  rewrite (staleWhileRevalidateEffect_fresh p ws e Es Has Has'). cbn [snd].
  set (w1 := with_cachedWeatherDisplay (Some (data e)) (Date_now ws).2).
  destruct (Date_now_frame ws) as (Hq & _ & Hc & _ & Hr).
  destruct (Date_now_rest ws) as (Hl & Ht & Hst & _).
  destruct (Date_now_frame w1) as (Hq1 & _ & Hc1 & Hd1 & Hr1).
  destruct (Date_now_rest w1) as (Hl1 & Ht1 & Hst1 & _).
  rewrite Hd1, Ht1, Hl1, Hq1, Hc1, Hr1, Hst1. unfold w1.
  cbn [cachedWeatherDisplay trace lastRefreshTimestamp timers weatherCache
       isRevalidating storage with_cachedWeatherDisplay].
  by rewrite Ht, Hl, Hq, Hc, Hr, Hst, Hts, Hls, Hqs, Hcs, Hrs.
Qed.

Lemma weatherArrivedEffect_frame p w :
  trace (weatherArrivedEffect p w).2 = trace w
  ∧ timers (weatherArrivedEffect p w).2 = timers w.
Proof.
  unfold weatherArrivedEffect. destruct (weather p) as [wx|]; [|done].
  unfold setCachedWeather, setCachedWeatherDisplay, setIsRevalidating.
  unfold mbind, M_bind, bind, modify.
  destruct (Date_now_frame w) as (Hq & _). destruct (Date_now_rest w) as (_ & Ht & _).
  destruct (Date_now w) as [t w1]. done.
Qed.

(** X9: after a payload has arrived for an active location that is a
    plain key, a later change back to that location, with the entry
    still there and no more than the TTL passed by both clock reads,
    fetches nothing and arms no timer in either case: if the host
    holds no payload then, the page displays the payload that had
    arrived; if the host holds a payload then, the page displays that
    one instead and stores it in the cache under the location. *)
Theorem arrival_then_switch_back p p' w w2 wx :
  plain_key (effectLocationId p) →
  weather p = Some wx →
  effectLocationId p' = effectLocationId p →
  weatherCache w2 !! effectLocationId p
    = weatherCache (weatherArrivedEffect p w).2 !! effectLocationId p →
  now w2 - now w ≤ CACHE_TTL_MS →
  now w2 - now w + hd 0 (ticks w2) ≤ CACHE_TTL_MS →
  let w' := (onLocationChange p' w2).2 in
  trace w' = trace w2
  ∧ timers w' = timers w2
  ∧ (weather p' = None → cachedWeatherDisplay w' = Some wx)
  ∧ (∀ wx', weather p' = Some wx' →
       cachedWeatherDisplay w' = Some wx'
       ∧ data <$> (weatherCache w' !! effectLocationId p) = Some wx').
Proof.
  intros _ Hwx Hid Hcache Hage Hage' w'.
  assert (Hput : weatherCache (weatherArrivedEffect p w).2 !! effectLocationId p
                 = Some (mkCached wx (now w) (effectLocationId p))).
  { unfold weatherArrivedEffect. rewrite Hwx.
    unfold setCachedWeather, setCachedWeatherDisplay, setIsRevalidating. run.
    unfold Date_now. simpl. destruct (ticks w); simpl; apply lookup_insert_eq. }
  rewrite Hput, <- Hid in Hcache.
  destruct (saveLocationEffect_frame p' w2) as (Hcs & Hls & Hts & Hqs & Hns & Hks & _).
  set (ws := (saveLocationEffect p' w2).2) in *.
  assert (Es : weatherCache ws !! effectLocationId p'
               = Some (mkCached wx (now w) (effectLocationId p'))) by (by rewrite Hcs).
  assert (Hfresh : staleWhileRevalidateEffect p' ws
                   = (tt, (Date_now (with_cachedWeatherDisplay (Some wx)
                                       (Date_now ws).2)).2)).
  { apply (staleWhileRevalidateEffect_fresh p' ws _ Es); unfold age; simpl;
      rewrite ?Hns, ?Hks; lia. }
  set (w1 := with_cachedWeatherDisplay (Some wx) (Date_now ws).2) in *.
  destruct (Date_now_frame ws) as (Hq & _).
  destruct (Date_now_rest ws) as (_ & Ht & _).
  destruct (Date_now_frame w1) as (Hq1 & _ & _ & Hd1 & _).
  destruct (Date_now_rest w1) as (_ & Ht1 & _).
  assert (Hsw : trace (Date_now w1).2 = trace w2 ∧ timers (Date_now w1).2 = timers w2
                ∧ cachedWeatherDisplay (Date_now w1).2 = Some wx).
  { rewrite Ht1, Hq1, Hd1. unfold w1.
    cbn [trace timers cachedWeatherDisplay with_cachedWeatherDisplay].
    by rewrite Ht, Hq, Hts, Hqs. }
  destruct Hsw as (Htr & Htm & Hdisp).
  unfold w'. rewrite onLocationChange_weather. fold ws. rewrite Hfresh. cbn [snd].
  destruct (weatherArrivedEffect_frame p' (Date_now w1).2) as (Hta & Hqa).
  split; [by rewrite Hta|]. split; [by rewrite Hqa|]. split.
  - intros Hnone. unfold weatherArrivedEffect. rewrite Hnone. exact Hdisp.
  - intros wx' Hsome. unfold weatherArrivedEffect. rewrite Hsome, Hid.
    unfold setCachedWeather, setCachedWeatherDisplay, setIsRevalidating.
    unfold mbind, M_bind, bind, modify.
    destruct (Date_now (Date_now w1).2) as [t w3].
    cbn [snd cachedWeatherDisplay weatherCache with_isRevalidating
         with_cachedWeatherDisplay with_weatherCache].
    split; [done|]. by rewrite lookup_insert_eq.
Qed.

(** ** Runs of the page: quiet steps *)

Lemma quiet_refl w : quiet w w.
Proof. repeat split; [lia|done]. Qed.

Lemma quiet_trans w1 w2 w3 : quiet w1 w2 → quiet w2 w3 → quiet w1 w3.
Proof.
  intros (Hl & Ht & Hq & Hi & Hk) (Hl' & Ht' & Hq' & Hi' & Hk').
  split; [congruence|]. split; [congruence|]. split; [congruence|].
  split; [congruence|].
  intros Hk1. destruct (Hk Hk1) as [? Hk2]. destruct (Hk' Hk2). split; [lia|done].
Qed.

Lemma quiet_Date_now w : quiet w (Date_now w).2.
Proof.
  destruct (Date_now_frame w) as (Hq & Hi & _).
  destruct (Date_now_rest w) as (Hl & Ht & _).
  split; [done|]. split; [done|]. split; [done|]. split; [done|].
  apply Date_now_forward.
Qed.

Lemma quiet_getCachedWeather w id : quiet w (getCachedWeather id w).2.
Proof.
  unfold getCachedWeather. destruct (weatherCache w !! id) as [e|]; [|apply quiet_refl].
  unfold mbind, M_bind, bind, mret, M_ret, ret, modify.
  pose proof (quiet_Date_now w) as H.
  destruct (Date_now w) as [t w1]. cbn [snd] in H.
  destruct (t - timestamp e >? CACHE_TTL_MS); exact H.
Qed.

Lemma quiet_isCacheStale w id : quiet w (isCacheStale id w).2.
Proof.
  unfold isCacheStale. destruct (weatherCache w !! id) as [e|]; [|apply quiet_refl].
  unfold mbind, M_bind, bind, mret, M_ret, ret.
  pose proof (quiet_Date_now w) as H.
  destruct (Date_now w) as [t w1]. exact H.
Qed.

Lemma quiet_setCachedWeather w id d : quiet w (setCachedWeather id d w).2.
Proof.
  unfold setCachedWeather, mbind, M_bind, bind, modify.
  pose proof (quiet_Date_now w) as H.
  destruct (Date_now w) as [t w1]. exact H.
Qed.

Lemma quiet_canRefresh w id : quiet w (canRefresh id w).2.
Proof.
  unfold canRefresh. destruct (lastRefreshTimestamp w !! id) as [t|]; [|apply quiet_refl].
  destruct (t =? 0); [apply quiet_refl|].
  unfold mbind, M_bind, bind, mret, M_ret, ret.
  pose proof (quiet_Date_now w) as H.
  destruct (Date_now w) as [t' w1]. exact H.
Qed.

Lemma quiet_weatherArrivedEffect p w : quiet w (weatherArrivedEffect p w).2.
Proof.
  unfold weatherArrivedEffect. destruct (weather p) as [wx|]; [|apply quiet_refl].
  unfold mbind, M_bind, bind, setCachedWeatherDisplay, setIsRevalidating, modify.
  pose proof (quiet_setCachedWeather w (effectLocationId p) wx) as H.
  destruct (setCachedWeather (effectLocationId p) wx w) as [[] w1]. exact H.
Qed.

Lemma quiet_saveLocationEffect p w : quiet w (saveLocationEffect p w).2.
Proof.
  unfold saveLocationEffect.
  destruct (truthy (weatherLocationId p)); [|apply quiet_refl].
  repeat split; [simpl; lia|done].
Qed.

(** ** Runs of the page: the throttle *)

Lemma throttle_inv_quiet w w' : throttle_inv w → quiet w w' → throttle_inv w'.
Proof.
  intros [Hk He Hp Hl Hs Hg] (Hl' & Ht' & _ & _ & Hk').
  destruct (Hk' Hk) as [Hn Hk2].
  split; [done|lia| | | |]; rewrite ?Ht', ?Hl'; try done.
  intros id t H. specialize (Hp _ _ H). lia.
Qed.

Lemma throttle_inv_invoke w w' a t :
  throttle_inv w →
  lastRefreshTimestamp w' = lastRefreshTimestamp w →
  trace w' = trace w ++ [EvInvoke a t] →
  now w ≤ now w' → clock_ok w' →
  throttle_inv w'.
Proof.
  intros [Hk He Hp Hl Hs Hg] Hl' Ht' Hn Hk'.
  split; [done|lia| | | |]; rewrite ?Ht', ?Hl'.
  - intros id t0 H. specialize (Hp _ _ H). lia.
  - intros i id t0 H. apply lookup_snoc_Some in H as [[_ H]|[_ [=]]]. eauto.
  - intros i j id t1 t2 Hij H1 H2.
    apply lookup_snoc_Some in H1 as [[_ H1]|[_ [=]]].
    apply lookup_snoc_Some in H2 as [[_ H2]|[_ [=]]]. eauto.
  - intros j arg H. apply lookup_snoc_Some in H as [[_ H]|[_ [=]]].
    destruct (Hg _ _ H) as (i & id & t0 & -> & Hi & Harg).
    exists i, id, t0. split; [done|]. split; [|done].
    apply lookup_app_l_Some. done.
Qed.

(** A refresh that [canRefresh] allowed keeps the records of a key more
    than the cooldown apart. *)
Lemma throttle_inv_refresh w w' id arg :
  throttle_inv w → (canRefresh id w).1 = true → fetch_arg_of id arg →
  lastRefreshTimestamp w' = <[id := now (canRefresh id w).2]> (lastRefreshTimestamp w) →
  trace w' = trace w ++ [EvRecordRefresh id (now (canRefresh id w).2);
                        EvRefreshWeather arg] →
  now (canRefresh id w).2 ≤ now w' → clock_ok w' →
  throttle_inv w'.
Proof.
  intros [Hk He Hp Hl Hs Hg] Hok Harg Hl' Ht' Hn Hk'.
  set (tr := now (canRefresh id w).2) in *.
  assert (Htr : now w ≤ tr).
  { destruct (quiet_canRefresh w id) as (_ & _ & _ & _ & Hc). by destruct (Hc Hk). }
  assert (Hold : ∀ t', lastRefreshTimestamp w !! id = Some t' →
                        REFRESH_COOLDOWN_MS < tr - t').
  { intros t' Ht. rewrite canRefresh_value, Ht in Hok.
    apply orb_true_iff in Hok as [Hz|Hgt].
    - apply Z.eqb_eq in Hz. lia.
    - rewrite Z.gtb_ltb in Hgt. apply Z.ltb_lt in Hgt. lia. }
  assert (Hpast : ∀ i t, trace w !! i = Some (EvRecordRefresh id t) →
                          REFRESH_COOLDOWN_MS < tr - t).
  { intros i t H. destruct (Hl _ _ _ H) as (t' & Hrec & Hle).
    specialize (Hold _ Hrec). lia. }
  assert (Hcd : 0 < REFRESH_COOLDOWN_MS) by (by vm_compute).
  split; [done|lia| | | |]; rewrite ?Ht', ?Hl'.
  - intros id0 t H. destruct (decide (id = id0)) as [<-|Hne].
    + rewrite lookup_insert_eq in H. injection H as <-. done.
    + rewrite lookup_insert_ne in H by done. specialize (Hp _ _ H). lia.
  - intros i id0 t H. apply lookup_app_Some in H as [H|[Hlen H]].
    + destruct (decide (id = id0)) as [<-|Hne].
      * rewrite lookup_insert_eq. exists tr. split; [done|].
        specialize (Hpast _ _ H). lia.
      * rewrite lookup_insert_ne by done. eauto.
    + destruct (i - length (trace w))%nat as [|[|n]]; simpl in H; [|done|done].
      injection H as <- <-. rewrite lookup_insert_eq. exists tr. split; [done|lia].
  - intros i j id0 t1 t2 Hij H1 H2.
    apply lookup_app_Some in H2 as [H2|[Hlen2 H2]].
    + apply lookup_app_Some in H1 as [H1|[Hlen1 _]]; [eauto|].
      apply lookup_lt_Some in H2. lia.
    + destruct (j - length (trace w))%nat as [|[|n]] eqn:Ej; simpl in H2; [|done|done].
      injection H2 as <- <-.
      apply lookup_app_Some in H1 as [H1|[Hlen1 H1]]; [eauto|lia].
  - intros j arg0 H. apply lookup_app_Some in H as [H|[Hlen H]].
    + destruct (Hg _ _ H) as (i & id0 & t0 & -> & Hi & Harg0).
      exists i, id0, t0. split; [done|]. split; [|done].
      by apply lookup_app_l_Some.
    + destruct (j - length (trace w))%nat as [|[|n]] eqn:Ej; simpl in H; [done| |done].
      injection H as <-. exists (length (trace w)), id, tr.
      split; [lia|]. split; [|done].
      rewrite lookup_app_r by lia. by rewrite Nat.sub_diag.
Qed.

Lemma recordRefresh_clock w id :
  clock_ok w → now w ≤ now (recordRefresh id w).2 ∧ clock_ok (recordRefresh id w).2.
Proof.
  intros Hk. unfold recordRefresh, mbind, M_bind, bind, modify.
  destruct (Date_now_forward w Hk) as [Hn Hk'].
  destruct (Date_now w) as [t w1]. done.
Qed.

Lemma refreshAction_throttle w id : throttle_inv w → throttle_inv (refreshAction id w).2.
Proof.
  intros Hinv. destruct ((canRefresh id w).1) eqn:Hok.
  - rewrite (refreshAction_allowed _ _ Hok).
    destruct (quiet_canRefresh w id) as (_ & _ & _ & _ & Hc).
    destruct (Hc (thr_clock _ Hinv)) as [Hn1 Hk1].
    destruct (recordRefresh_clock _ id Hk1) as [Hn2 Hk2].
    destruct (canRefresh_frame w id) as (Hl & Ht & _).
    eapply (throttle_inv_refresh w _ id (Some id)); [done|done|by left| | | |].
    + unfold refreshWeather, setIsRevalidating, modify.
      cbn [snd lastRefreshTimestamp with_trace with_isRevalidating].
      by rewrite recordRefresh_record, Hl.
    + unfold refreshWeather, setIsRevalidating, modify.
      cbn [snd trace with_trace with_isRevalidating].
      by rewrite recordRefresh_trace, Ht, <- app_assoc.
    + unfold refreshWeather, setIsRevalidating, modify.
      cbn [snd now with_trace with_isRevalidating]. lia.
    + done.
  - rewrite (refreshAction_blocked _ _ Hok).
    eapply throttle_inv_quiet; [done|apply quiet_canRefresh].
Qed.

Lemma gate_throttle id arg w :
  fetch_arg_of id arg → throttle_inv w → throttle_inv (gate id arg w).2.
Proof.
  intros Harg Hinv. destruct ((canRefresh id w).1) eqn:Hok.
  - rewrite (gate_allowed _ _ _ Hok).
    destruct (quiet_canRefresh w id) as (_ & _ & _ & _ & Hc).
    destruct (Hc (thr_clock _ Hinv)) as [Hn1 Hk1].
    destruct (recordRefresh_clock _ id Hk1) as [Hn2 Hk2].
    destruct (canRefresh_frame w id) as (Hl & Ht & _).
    eapply (throttle_inv_refresh w _ id arg); [done|done|done| | | |].
    + unfold refreshWeather, modify. cbn [snd lastRefreshTimestamp with_trace].
      by rewrite recordRefresh_record, Hl.
    + unfold refreshWeather, modify. cbn [snd trace with_trace].
      by rewrite recordRefresh_trace, Ht, <- app_assoc.
    + unfold refreshWeather, modify. cbn [snd now with_trace]. lia.
    + done.
  - rewrite (gate_blocked _ _ _ Hok).
    eapply throttle_inv_quiet; [done|apply quiet_canRefresh].
Qed.

Lemma throttle_inv_frame w w' :
  throttle_inv w →
  lastRefreshTimestamp w' = lastRefreshTimestamp w → trace w' = trace w →
  now w ≤ now w' → clock_ok w' → throttle_inv w'.
Proof.
  intros [Hk He Hp Hl Hs Hg] Hl' Ht' Hn Hk'.
  split; [done|lia| | | |]; rewrite ?Ht', ?Hl'; try done.
  intros id t H. specialize (Hp _ _ H). lia.
Qed.

Lemma staleWhileRevalidateEffect_expired p w e :
  weatherCache w !! effectLocationId p = Some e → CACHE_TTL_MS < age w e →
  staleWhileRevalidateEffect p w
  = gate (effectLocationId p) (directRefreshArg p)
      (with_isRevalidating true
         (with_cachedWeatherDisplay None
            (with_weatherCache
               (delete (effectLocationId p) (weatherCache (Date_now w).2))
               (Date_now w).2))).
Proof.
  intros E Hage. unfold staleWhileRevalidateEffect.
  unfold mbind at 1, M_bind at 1, bind at 1.
  by rewrite (getCachedWeather_evicts w _ e E Hage).
Qed.

Lemma staleWhileRevalidateEffect_live p w e :
  weatherCache w !! effectLocationId p = Some e → age w e ≤ CACHE_TTL_MS →
  let w1 := with_cachedWeatherDisplay (Some (data e)) (Date_now w).2 in
  staleWhileRevalidateEffect p w
  = if (isCacheStale (effectLocationId p) w1).1
    then debouncedRefresh (effectLocationId p) (isCacheStale (effectLocationId p) w1).2
    else (tt, (isCacheStale (effectLocationId p) w1).2).
Proof.
  intros E Hage w1. unfold staleWhileRevalidateEffect.
  unfold mbind at 1, M_bind at 1, bind at 1.
  rewrite (getCachedWeather_returns w _ e E Hage).
  unfold setCachedWeatherDisplay, mbind, M_bind, bind, modify. fold w1.
  by destruct (isCacheStale (effectLocationId p) w1) as [[|] w2].
Qed.

Lemma directRefreshArg_fetch p : fetch_arg_of (effectLocationId p) (directRefreshArg p).
Proof.
  unfold directRefreshArg, fetch_arg_of.
  destruct (String.eqb_spec (effectLocationId p) "default"); [by right|by left].
Qed.

(** What a call of the debounced function leaves as it was. *)
Lemma debounced_frame wait args w :
  lastRefreshTimestamp (debounced wait args w).2 = lastRefreshTimestamp w
  ∧ trace (debounced wait args w).2 = trace w
  ∧ now (debounced wait args w).2 = now w
  ∧ ticks (debounced wait args w).2 = ticks w
  ∧ weatherCache (debounced wait args w).2 = weatherCache w.
Proof.
  unfold debounced, clearTimeout, setTimeout, mbind, M_bind, bind, mret, M_ret, ret, modify.
  by destruct (timeoutId w).
Qed.

Lemma staleWhileRevalidateEffect_throttle p w :
  throttle_inv w → throttle_inv (staleWhileRevalidateEffect p w).2.
Proof.
  intros Hinv. set (id := effectLocationId p).
  destruct (weatherCache w !! id) as [e|] eqn:E.
  - destruct (Z_le_gt_dec (age w e) CACHE_TTL_MS) as [Hlive|Hold].
    + rewrite (staleWhileRevalidateEffect_live p w e E Hlive). fold id.
      set (w1 := with_cachedWeatherDisplay (Some (data e)) (Date_now w).2).
      assert (H1 : throttle_inv w1).
      { destruct (quiet_Date_now w) as (Hl & Ht & _ & _ & Hc).
        destruct (Hc (thr_clock _ Hinv)).
        eapply (throttle_inv_frame w); done. }
      pose proof (throttle_inv_quiet _ _ H1 (quiet_isCacheStale w1 id)) as H2.
      destruct ((isCacheStale id w1).1); [|done].
      destruct (debounced_frame 300 id (isCacheStale id w1).2) as (Hl & Ht & Hn & Hk & _).
      eapply throttle_inv_frame; [exact H2|done|done|unfold debouncedRefresh; lia|].
      unfold clock_ok, debouncedRefresh. rewrite Hk. exact (thr_clock _ H2).
    + rewrite (staleWhileRevalidateEffect_expired p w e E) by lia.
      apply gate_throttle; [apply directRefreshArg_fetch|].
      destruct (quiet_Date_now w) as (Hl & Ht & _ & _ & Hc).
      destruct (Hc (thr_clock _ Hinv)).
      eapply (throttle_inv_frame w); done.
  - rewrite (staleWhileRevalidateEffect_uncached p w E).
    apply gate_throttle; [apply directRefreshArg_fetch|].
    eapply (throttle_inv_frame w); [done|done|done|simpl; lia|exact (thr_clock _ Hinv)].
Qed.

Lemma runUntil_throttle fuel T : ∀ w,
  throttle_inv w → throttle_inv (runUntil refreshAction fuel T w).2.
Proof.
  induction fuel as [|fuel IH]; intros w Hinv; simpl;
    destruct (next_due T (timers w)) as [tm|] eqn:E.
  - done.
  - eapply (throttle_inv_frame w); [done|done|done|simpl; lia|exact (thr_clock _ Hinv)].
  - unfold fire, debounce_callback, mbind, M_bind, bind, modify.
    set (w1 := with_clock _ _ _).
    set (w2 := with_trace _ w1).
    assert (H2 : throttle_inv w2).
    { eapply (throttle_inv_invoke w w2 (targs tm) (now w1)); try done.
      - simpl. lia.
      - exact (thr_clock _ Hinv). }
    pose proof (refreshAction_throttle w2 (targs tm) H2) as H3.
    destruct (refreshAction (targs tm) w2) as [[] w3]. cbn [snd] in H3.
    apply IH. eapply (throttle_inv_frame w3); [done|done|done|simpl; lia|].
    exact (thr_clock _ H3).
  - eapply (throttle_inv_frame w); [done|done|done|simpl; lia|exact (thr_clock _ Hinv)].
Qed.

Lemma throttle_inv_init t0 ts :
  REFRESH_COOLDOWN_MS < t0 → Forall (Z.le 0) ts →
  throttle_inv (initWorld (Payload := Payload) t0 ts).
Proof.
  intros Ht0 Hts. split; simpl; try done.
Qed.

Lemma runPage_throttle (evs : list (PageEvent Payload)) : ∀ w,
  throttle_inv w → throttle_inv (runPage evs w).
Proof.
  induction evs as [|ev evs IH]; intros w Hinv; [done|].
  simpl. apply IH. destruct ev as [p|p|p|T fuel]; simpl.
  - by apply staleWhileRevalidateEffect_throttle.
  - eapply throttle_inv_quiet; [done|apply quiet_weatherArrivedEffect].
  - eapply throttle_inv_quiet; [done|apply quiet_saveLocationEffect].
  - unfold mbind, M_bind, bind, mret, M_ret, ret.
    pose proof (runUntil_throttle fuel T w Hinv) as H.
    by destruct (runUntil refreshAction fuel T w).
Qed.

(** X10: along any run of the page from plugin load, with a clock that
    starts more than 30 s past the epoch and never runs backwards, two
    throttle records of one location are more than the 30 s cooldown
    apart, whichever path, direct or debounced, wrote them. *)
Theorem refreshes_are_spaced (evs : list (PageEvent Payload)) t0 ts
    (i j : nat) id t1 t2 :
  REFRESH_COOLDOWN_MS < t0 → Forall (Z.le 0) ts → (i < j)%nat →
  trace (runPage evs (initWorld t0 ts)) !! i = Some (EvRecordRefresh id t1) →
  trace (runPage evs (initWorld t0 ts)) !! j = Some (EvRecordRefresh id t2) →
  REFRESH_COOLDOWN_MS < t2 - t1.
Proof.
  intros Ht0 Hts.
  exact (thr_spaced _ (runPage_throttle evs _ (throttle_inv_init t0 ts Ht0 Hts)) i j id t1 t2).
Qed.

(** X11: along any such run, every call to [refreshWeather] comes right
    after a throttle record: for the location passed, or for
    ["default"] when no argument is passed.  The page never fetches
    without recording the refresh first. *)
Theorem fetches_are_recorded (evs : list (PageEvent Payload)) t0 ts (j : nat) arg :
  REFRESH_COOLDOWN_MS < t0 → Forall (Z.le 0) ts →
  trace (runPage evs (initWorld t0 ts)) !! j = Some (EvRefreshWeather arg) →
  ∃ (i : nat) id t,
    j = S i
    ∧ trace (runPage evs (initWorld t0 ts)) !! i = Some (EvRecordRefresh id t)
    ∧ fetch_arg_of id arg.
Proof.
  intros Ht0 Hts.
  exact (thr_gated _ (runPage_throttle evs _ (throttle_inv_init t0 ts Ht0 Hts)) j arg).
Qed.

(** ** Runs of the page: the timers *)

Lemma idle_or_armed_frame w w' :
  idle_or_armed w → timers w' = timers w → timeoutId w' = timeoutId w →
  idle_or_armed w'.
Proof. unfold idle_or_armed. intros H -> ->. exact H. Qed.

Lemma gate_timers id arg w :
  timers (gate id arg w).2 = timers w ∧ timeoutId (gate id arg w).2 = timeoutId w.
Proof. by destruct (direct_refresh_frame id arg w) as (? & ? & _). Qed.

Lemma refreshAction_timers w id : timers (refreshAction id w).2 = timers w.
Proof. by destruct (refreshAction_plain id w). Qed.

Lemma staleWhileRevalidateEffect_timers p w :
  idle_or_armed w → idle_or_armed (staleWhileRevalidateEffect p w).2.
Proof.
  intros Hinv. set (id := effectLocationId p).
  destruct (weatherCache w !! id) as [e|] eqn:E.
  - destruct (Z_le_gt_dec (age w e) CACHE_TTL_MS) as [Hlive|Hold].
    + rewrite (staleWhileRevalidateEffect_live p w e E Hlive). fold id.
      set (w1 := with_cachedWeatherDisplay (Some (data e)) (Date_now w).2).
      destruct (Date_now_frame w) as (Hq & Hi & _).
      destruct (quiet_isCacheStale w1 id) as (_ & _ & Hq2 & Hi2 & _).
      assert (H2 : idle_or_armed (isCacheStale id w1).2).
      { eapply (idle_or_armed_frame w); [done| |]; by rewrite ?Hq2, ?Hi2. }
      destruct ((isCacheStale id w1).1); [|done].
      destruct (debounced_arms 300 id (isCacheStale id w1).2) as [(_ & i & Hq3 & Hi3) _];
        [lia| |].
      * destruct H2 as [[? _]|?]; [by left|by right].
      * right. unfold debouncedRefresh. eauto.
    + destruct (expired_entry_takes_missing_branch p w e E) as (_ & _ & _ & Hq & Hi);
        [lia|].
      by eapply (idle_or_armed_frame w).
  - rewrite (staleWhileRevalidateEffect_uncached p w E).
    destruct (gate_timers id (directRefreshArg p)
                (with_isRevalidating true (with_cachedWeatherDisplay None w))) as [Hq Hi].
    by eapply (idle_or_armed_frame w).
Qed.

Lemma next_due_elem T (q : list Timer) tm : next_due T q = Some tm → tm ∈ q.
Proof.
  induction q as [|t q IH]; simpl; [done|].
  destruct (next_due T q) as [t'|].
  - destruct (due t' <? due t); intros [= <-]; [|by left].
    right. by apply IH.
  - destruct (due t <=? T); [|done]. intros [= <-]. by left.
Qed.

Lemma runUntil_timers fuel T w :
  idle_or_armed w → idle_or_armed (runUntil refreshAction fuel T w).2.
Proof.
  intros Hinv.
  destruct (next_due T (timers w)) as [tm|] eqn:E.
  - destruct fuel as [|fuel]; simpl; rewrite E; [done|].
    destruct Hinv as [[Hq _]|(i & d & a & Hq & Hi)].
    { rewrite Hq in E. done. }
    apply next_due_elem in E. rewrite Hq in E.
    apply list_elem_of_singleton in E as ->.
    unfold fire, debounce_callback, mbind, M_bind, bind, modify.
    cbn [tid targs]. rewrite Hq. simpl List.filter. rewrite Pos.eqb_refl. simpl List.filter.
    match goal with |- context [refreshAction a ?w0] => set (w2 := w0) end.
    pose proof (refreshAction_timers w2 a) as Hq3.
    destruct (refreshAction a w2) as [[] w3]. cbn [snd] in Hq3.
    rewrite runUntil_idle by (simpl; by rewrite Hq3).
    left. simpl. by rewrite Hq3.
  - rewrite (runUntil_idle _ _ _ _ E). by eapply (idle_or_armed_frame w).
Qed.

(** X12: while the page stays mounted, along any run of its effects
    and timers from plugin load at most one timer is pending, and
    [timeoutId] is its handle; when none is pending [timeoutId] is
    null.  The events are those of one mount: a remount, which makes a
    new debounced function with a handle of its own, is not among
    them. *)
Theorem at_most_one_timer (evs : list (PageEvent Payload)) t0 ts :
  idle_or_armed (runPage evs (initWorld t0 ts))
  ∧ (length (timers (runPage evs (initWorld t0 ts))) ≤ 1)%nat.
Proof.
  assert (H : ∀ w : World Payload, idle_or_armed w → idle_or_armed (runPage evs w)).
  { induction evs as [|ev evs IH]; intros w Hinv; [done|].
    simpl. apply IH. destruct ev as [p|p|p|T fuel]; simpl.
    - by apply staleWhileRevalidateEffect_timers.
    - destruct (quiet_weatherArrivedEffect p w) as (_ & _ & Hq & Hi & _).
      by eapply (idle_or_armed_frame w).
    - destruct (quiet_saveLocationEffect p w) as (_ & _ & Hq & Hi & _).
      by eapply (idle_or_armed_frame w).
    - unfold mbind, M_bind, bind, mret, M_ret, ret.
      pose proof (runUntil_timers fuel T w Hinv) as H.
      by destruct (runUntil refreshAction fuel T w). }
  assert (H0 : idle_or_armed (runPage evs (initWorld t0 ts))).
  { apply H. by left. }
  split; [exact H0|].
  destruct H0 as [[-> _]|(i & d & a & -> & _)]; simpl; lia.
Qed.

(** ** Debounce: calls that are far apart *)

Lemma idle_fires_nothing func fuel T w :
  timers w = [] →
  runUntil func fuel T w = (true, with_clock (Z.max (now w) T) (ticks w) w).
Proof. intros Hq. apply runUntil_idle. by rewrite Hq. Qed.

Lemma spaced_burst func wait fuel : ∀ calls w t a,
  0 < wait → plain_action func → (∀ a w, now (func a w).2 = now w) →
  armed wait t a w → spaced_calls wait t calls →
  let r := burst func wait (S fuel) calls w in
  r.1 = true
  ∧ armed wait (default (t, a) (last calls)).1 (default (t, a) (last calls)).2 r.2
  ∧ invocations (trace r.2)
    = invocations (trace w)
      ++ due_invocations wait (removelast ((t, a) :: calls)).
Proof.
  induction calls as [|[t' a'] rest IH]; intros w t a Hwait Hplain Hsteady Harm Hsp.
  - simpl. by rewrite app_nil_r.
  - simpl in Hsp. destruct Hsp as [Hlt Hrest].
    destruct (armed_fires func wait fuel t a t' w Hwait Hplain Harm) as (Hok & Hinv & Hq);
      [lia|].
    set (w1 := (runUntil func (S fuel) t' w).2) in *.
    assert (Hnow1 : now w1 = t').
    { destruct Harm as (Hnow & i & Hq0 & Hi0).
      assert (Hdue : next_due t' (timers w) = Some (mkTimer i (t + wait) a)).
      { rewrite Hq0, next_due_one. simpl. destruct (Z.leb_spec (t + wait) t'); [done|lia]. }
      unfold w1. cbn [runUntil]. rewrite Hdue.
      unfold fire, debounce_callback, mbind, M_bind, bind, modify.
      cbn [tid targs due]. rewrite Hq0. simpl List.filter. rewrite Pos.eqb_refl.
      simpl List.filter.
      match goal with |- context [func a ?w0] => set (w2 := w0) end.
      destruct (Hplain a w2) as [Hq2 _]. pose proof (Hsteady a w2) as Hn2.
      destruct (func a w2) as [[] w3]. cbn [snd] in Hq2, Hn2.
      rewrite runUntil_idle by (simpl; by rewrite Hq2).
      simpl. rewrite Hn2. simpl. lia. }
    destruct (debounced_arms wait a' w1 Hwait) as [Harm' Htr']; [by left|].
    rewrite Hnow1 in Harm'.
    destruct (IH _ t' a' Hwait Hplain Hsteady Harm' Hrest) as (Hok' & Hlast & Hinv').
    intros r. unfold r. rewrite burst_cons. cbn [fst snd]. fold w1.
    rewrite Hok, Hok'. split; [done|]. split.
    + destruct rest as [|c rest']; [done|].
      by rewrite last_cons_cons, (default_last_cons _ (t', a')).
    + rewrite Hinv', Htr', Hinv, <- app_assoc. f_equal.
Qed.

Lemma removelast_default_last {A} (x : A) (l : list A) :
  removelast (x :: l) ++ [default x (last l)] = x :: l.
Proof.
  revert x. induction l as [|y l IH]; intros x; [done|].
  change (removelast (x :: y :: l)) with (x :: removelast (y :: l)).
  simpl app. f_equal.
  rewrite <- (IH y) at 2. f_equal. f_equal.
  destruct l as [|z l]; [done|].
  by rewrite last_cons_cons, (default_last_cons _ y).
Qed.

Lemma each_call_run_snoc func wait t a : ∀ calls (w : World Payload),
  each_call_run func wait (calls ++ [(t, a)]) w
  = after_call func (t + wait) a
      (left_pending wait t a (nextTimerId (each_call_run func wait calls w))
         (Pos.succ (nextTimerId (each_call_run func wait calls w)))
         (each_call_run func wait calls w)).
Proof.
  induction calls as [|[t' a'] calls IH]; intros w; [done|].
  simpl. apply IH.
Qed.

Lemma after_call_idle func t a (w : World Payload) :
  plain_action func → timers (after_call func t a w) = [].
Proof.
  intros Hplain. unfold after_call. cbn [timers with_timeoutId].
  by rewrite (proj1 (Hplain _ _)).
Qed.

Lemma after_call_now func t a (w : World Payload) :
  (∀ a w, now (func a w).2 = now w) → now (after_call func t a w) = t.
Proof.
  intros Hsteady. unfold after_call. cbn [now with_timeoutId].
  by rewrite Hsteady.
Qed.

(** Calls that come more than the wait apart: each finds the one before
    it already run, and is left pending in its turn. *)
Lemma spaced_burst_state func wait fuel : ∀ calls (w : World Payload) t a,
  0 < wait → plain_action func → (∀ a w, now (func a w).2 = now w) →
  timers w = [] → spaced_calls wait t calls →
  let wl := each_call_run func wait (removelast ((t, a) :: calls)) w in
  burst func wait (S fuel) calls
    (left_pending wait t a (nextTimerId w) (Pos.succ (nextTimerId w)) w)
  = (true, left_pending wait (default (t, a) (last calls)).1
             (default (t, a) (last calls)).2
             (nextTimerId wl) (Pos.succ (nextTimerId wl)) wl).
Proof.
  induction calls as [|[t' a'] rest IH]; intros w t a Hwait Hplain Hsteady Hq Hsp.
  - reflexivity.
  - simpl in Hsp. destruct Hsp as [Hlt Hrest].
    set (wp := left_pending wait t a (nextTimerId w) (Pos.succ (nextTimerId w)) w).
    assert (Harm : armed wait t a wp).
    { split; [done|]. by exists (nextTimerId w). }
    set (ac := after_call func (t + wait) a wp).
    assert (Hrun : runUntil func (S fuel) t' wp = (true, with_clock t' (ticks ac) ac)).
    { rewrite (armed_runs func wait fuel t a t' wp Hwait Hplain Harm) by lia.
      fold ac.
      assert (Hnowac : now ac = t + wait) by (by apply after_call_now).
      by rewrite Hnowac, (Z.max_r (t + wait) t') by lia. }
    assert (Hqa : timers ac = []) by (by apply after_call_idle).
    intros wl. rewrite burst_cons, Hrun. cbn [fst snd].
    rewrite (debounced_first wait t' a' ac Hwait Hqa).
    assert (Hlast : default (t, a) (last ((t', a') :: rest))
                    = default (t', a') (last rest)).
    { destruct rest as [|c rest']; [done|].
      by rewrite last_cons_cons, (default_last_cons (t, a) (t', a')). }
    rewrite Hlast.
    pose proof (IH ac t' a' Hwait Hplain Hsteady Hqa Hrest) as Hrec.
    cbv zeta in Hrec. rewrite Hrec. reflexivity.
Qed.

(** X13: calls to the debounced function that each come more than the
    wait after the one before are not collapsed.  Once the wait has
    elapsed since the last of them, the state is the one obtained by
    leaving each call pending and applying the wrapped function to its
    arguments, the wait after it was made, for every call in order: the
    function has run once per call and no more.  The wait is one the
    platform honours, and the wrapped function leaves the timers and
    the clock alone. *)
Theorem debounce_spaced_calls func wait fuel t1 a1 rest T w :
  0 < wait ≤ TIMEOUT_MAX → plain_action func → (∀ a w, now (func a w).2 = now w) →
  timers w = [] → now w ≤ t1 → spaced_calls wait t1 rest →
  (default (t1, a1) (last rest)).1 + wait ≤ T →
  let wf := each_call_run func wait ((t1, a1) :: rest) w in
  runUntil func (S fuel) T (burst func wait (S fuel) ((t1, a1) :: rest) w).2
  = (true, with_clock T (ticks wf) wf)
  ∧ (burst func wait (S fuel) ((t1, a1) :: rest) w).1 = true
  ∧ invocations
      (trace (runUntil func (S fuel) T
                (burst func wait (S fuel) ((t1, a1) :: rest) w).2).2)
    = invocations (trace w) ++ due_invocations wait ((t1, a1) :: rest).
Proof.
  intros [Hwait _] Hplain Hsteady Hq Hnow Hsp HT wf.
  set (tN := (default (t1, a1) (last rest)).1) in *.
  set (aN := (default (t1, a1) (last rest)).2).
  set (wl := each_call_run func wait (removelast ((t1, a1) :: rest)) w).
  assert (Hburst : burst func wait (S fuel) ((t1, a1) :: rest) w
                   = (true, left_pending wait tN aN (nextTimerId wl)
                              (Pos.succ (nextTimerId wl)) wl)).
  { rewrite burst_cons.
    rewrite (idle_fires_nothing func (S fuel) t1 w Hq). cbn [fst snd].
    rewrite (Z.max_r (now w) t1) by lia.
    rewrite (debounced_first wait t1 a1 w Hwait Hq).
    pose proof (spaced_burst_state func wait fuel rest w t1 a1 Hwait Hplain Hsteady Hq Hsp)
      as Hrec.
    cbv zeta in Hrec. by rewrite Hrec. }
  assert (Hwf : wf = after_call func (tN + wait) aN
                       (left_pending wait tN aN (nextTimerId wl)
                          (Pos.succ (nextTimerId wl)) wl)).
  { unfold wf.
    transitivity (each_call_run func wait
                    (removelast ((t1, a1) :: rest) ++ [(tN, aN)]) w).
    - f_equal. symmetry.
      assert (Hpair : (tN, aN) = default (t1, a1) (last rest))
        by (unfold tN, aN; by destruct (default (t1, a1) (last rest))).
      rewrite Hpair. apply removelast_default_last.
    - by rewrite each_call_run_snoc. }
  assert (Harm : armed wait tN aN
                   (left_pending wait tN aN (nextTimerId wl) (Pos.succ (nextTimerId wl)) wl)).
  { split; [done|]. by exists (nextTimerId wl). }
  split; [|split; [by rewrite Hburst|]].
  - rewrite Hburst. cbn [snd].
    rewrite (armed_runs func wait fuel tN aN T _ Hwait Hplain Harm HT), <- Hwf.
    rewrite Hwf at 1. rewrite (after_call_now func (tN + wait) aN _ Hsteady).
    by rewrite (Z.max_r (tN + wait) T) by lia.
  - rewrite burst_cons. cbn [snd].
    rewrite (idle_fires_nothing func (S fuel) t1 w Hq). cbn [snd].
    set (w1 := with_clock (Z.max (now w) t1) (ticks w) w).
    destruct (debounced_arms wait a1 w1 Hwait) as [Harm1 Htr1]; [by left|].
    assert (Hnow1 : now w1 = t1) by (simpl; lia).
    rewrite Hnow1 in Harm1.
    destruct (spaced_burst func wait fuel rest _ t1 a1 Hwait Hplain Hsteady Harm1 Hsp)
      as (_ & Harm' & Hinv).
    destruct (armed_fires func wait fuel _ _ T _ Hwait Hplain Harm' HT) as (_ & Hfinal & _).
    rewrite Hfinal, Hinv, Htr1, <- app_assoc. f_equal.
    change [((default (t1, a1) (last rest)).2, (default (t1, a1) (last rest)).1 + wait)]
      with (due_invocations wait [default (t1, a1) (last rest)]).
    unfold due_invocations. rewrite <- map_app. by rewrite removelast_default_last.
Qed.

(** ** Choosing the location *)

Lemma fallback_location_resolves p x :
  fallback_location p = Some x → still_resolves p x.
Proof.
  unfold fallback_location, still_resolves.
  destruct (currentLocation p) as [c|] eqn:Ec.
  - intros [= <-]. right. left. split; [done|]. eauto.
  - destruct (homeLocation p) as [h|] eqn:Eh; [|done].
    intros [= <-]. right. right. eauto.
Qed.

(** X14: whatever is in storage, the location [initializeLocation]
    selects still resolves: it is the id of a saved location, the
    device pseudo-id with a device location present, or the home id.
    It never selects a stored id that no longer resolves. *)
Theorem initializeLocation_resolves p w x :
  (initializeLocation p w).1 = Some x → still_resolves p x.
Proof.
  unfold initializeLocation.
  destruct (negb (truthy (weatherLocationId p))); [|done].
  rewrite fallback_location_eq.
  destruct (storage w !! LAST_LOCATION_KEY) as [l|];
    [|apply fallback_location_resolves].
  destruct (truthy l); [|apply fallback_location_resolves].
  match goal with |- context [if ?b then _ else _] => destruct b eqn:Hb end;
    [|apply fallback_location_resolves].
  intros [= <-]. by apply still_resolves_tests.
Qed.

(** X15: a location saved by the save effect is the one restored at
    the next mount with no active location, provided it still resolves
    then; if it no longer resolves, the fallback is selected. *)
Theorem save_then_initialize p p' w :
  weatherLocationId p ≠ ""%string → weatherLocationId p' = ""%string →
  (still_resolves p' (weatherLocationId p) →
     (initializeLocation p' (saveLocationEffect p w).2).1 = Some (weatherLocationId p))
  ∧ (¬ still_resolves p' (weatherLocationId p) →
     (initializeLocation p' (saveLocationEffect p w).2).1 = fallback_location p').
Proof.
  intros Hset Hunset.
  assert (Hst : storage (saveLocationEffect p w).2 !! LAST_LOCATION_KEY
                = Some (weatherLocationId p)).
  { unfold saveLocationEffect. apply truthy_spec in Hset. rewrite Hset.
    simpl. apply lookup_insert_eq. }
  unfold initializeLocation.
  apply truthy_false in Hunset. rewrite Hunset. simpl negb. cbv iota.
  rewrite Hst, fallback_location_eq.
  apply truthy_spec in Hset. rewrite Hset.
  split; intros Hres.
  - apply still_resolves_tests in Hres. by rewrite Hres.
  - match goal with |- context [if ?b then _ else _] => destruct b eqn:Hb end; [|done].
    apply still_resolves_tests in Hb. contradiction.
Qed.

(** X16: the location id the effects work with is never empty; it is
    the active location when one is set; with none set it is the id
    that the fallback of [initializeLocation] selects, when that id is
    not empty, and ["default"] when there is no location at all. *)
Theorem effectLocationId_facts p :
  effectLocationId p ≠ ""%string
  ∧ (weatherLocationId p ≠ ""%string → effectLocationId p = weatherLocationId p)
  ∧ (weatherLocationId p = ""%string →
       (∀ x, fallback_location p = Some x → x ≠ ""%string → effectLocationId p = x)
       ∧ (fallback_location p = None → effectLocationId p = "default"%string)).
Proof.
  unfold effectLocationId, fallback_location.
  split; [|split].
  - destruct (truthy (weatherLocationId p)) eqn:Hw; [by apply truthy_spec|].
    destruct (currentLocation p); [done|].
    destruct (homeLocation p) as [h|]; simpl; [|done].
    destruct (truthy (loc_id h)) eqn:Hh; [by apply truthy_spec|done].
  - intros Hset. apply truthy_spec in Hset. by rewrite Hset.
  - intros Hunset. apply truthy_false in Hunset. rewrite Hunset.
    destruct (currentLocation p).
    + split; [by intros x [= <-] _|done].
    + destruct (homeLocation p) as [h|]; simpl; [|done].
      split; [|done]. intros x [= <-] Hx. apply truthy_spec in Hx. by rewrite Hx.
Qed.

(** ** The page with the cache against the page without it *)

(** X17: when storage holds no last location that still resolves, the
    page with the cache initialises the location exactly as the page
    without it does. *)
Theorem initializeLocation_without_memory p w :
  (∀ lastLocation,
     storage w !! LAST_LOCATION_KEY = Some lastLocation →
     lastLocation ≠ ""%string → ¬ still_resolves p lastLocation) →
  (initializeLocation p w).1 = IndexTsx.initialLocationEffect p.
Proof.
  intros Hnone. unfold initializeLocation, IndexTsx.initialLocationEffect.
  destruct (negb (truthy (weatherLocationId p))); [|done].
  assert (Hfb : match currentLocation p with
                | Some _ => Some "current-location"%string
                | None => loc_id <$> homeLocation p
                end
                = match currentLocation p with
                  | Some _ => Some "current-location"%string
                  | None => match homeLocation p with
                            | Some h => Some (loc_id h)
                            | None => None
                            end
                  end).
  { destruct (currentLocation p); [done|]. by destruct (homeLocation p). }
  rewrite Hfb.
  destruct (storage w !! LAST_LOCATION_KEY) as [l|] eqn:Hl; [|done].
  destruct (truthy l) eqn:Hne; [|done].
  apply truthy_spec in Hne. specialize (Hnone l eq_refl Hne).
  match goal with |- context [if ?b then _ else _] => destruct b eqn:Hb end; [|done].
  apply still_resolves_tests in Hb. contradiction.
Qed.

(** X18: the direct refresh of the page with the cache passes
    [refreshWeather] the same argument as the page without the cache,
    except when the location id is literally ["default"] or the home
    location has an empty id: then it passes no argument where the
    other page passes that id. *)
Theorem directRefreshArg_vs_index p :
  (directRefreshArg p = IndexTsx.refreshArg p
   ∨ (directRefreshArg p = None
      ∧ (IndexTsx.refreshArg p = Some "default"%string
         ∨ IndexTsx.refreshArg p = Some ""%string)))
  ∧ (effectLocationId p ≠ "default"%string →
       directRefreshArg p = IndexTsx.refreshArg p).
Proof.
  unfold directRefreshArg, IndexTsx.refreshArg, effectLocationId.
  destruct (truthy (weatherLocationId p)) eqn:Hw.
  - destruct (String.eqb_spec (weatherLocationId p) "default") as [->|Hne].
    + split; [right; by split; [|left]|done].
    + split; [by left|done].
  - destruct (currentLocation p); [by split; [left|]|].
    destruct (homeLocation p) as [h|]; simpl; [|by split; [left|]].
    destruct (truthy (loc_id h)) eqn:Hh.
    + destruct (String.eqb_spec (loc_id h) "default") as [->|Hne].
      * split; [right; by split; [|left]|done].
      * split; [by left|done].
    + apply truthy_false in Hh. rewrite Hh. simpl.
      split; [right; by split; [|right]|done].
Qed.

(** X19: the page with the cache renders the error view only where the
    page without it does, with the same message; the two differ exactly
    when a payload is held for display: the held payload is shown where
    the other page shows the error. *)
Theorem render_vs_index p w :
  (∀ message, render p w = ErrorView message →
     IndexTsx.render p = ErrorView message)
  ∧ (cachedWeatherDisplay w = None →
       ∀ message, IndexTsx.render p = ErrorView message →
         render p w = ErrorView message)
  ∧ (∀ d, cachedWeatherDisplay w = Some d →
       weatherError p ≠ ""%string → weather p = None →
       IndexTsx.render p = ErrorView (weatherError p)
       ∧ render p w = ForecastView (Some d) (isRevalidating w)).
Proof.
  assert (Hsome : ∀ d : Payload, bool_decide (is_Some (Some d)) = true)
    by (intros d; apply bool_decide_eq_true_2; eauto).
  assert (Hnone : bool_decide (is_Some (@None Payload)) = false)
    by (apply bool_decide_eq_false_2; by intros [? ?]).
  unfold render, IndexTsx.render, displayWeather.
  split; [|split].
  - intros message.
    destruct (truthy (weatherError p)); simpl; [|discriminate].
    destruct (cachedWeatherDisplay w); [rewrite Hsome; discriminate|].
    destruct (weather p); [rewrite Hsome; discriminate|by rewrite Hnone].
  - intros -> message.
    by destruct (truthy (weatherError p) && negb (bool_decide (is_Some (weather p)))).
  - intros d -> He ->. apply truthy_spec in He. by rewrite He, Hsome, Hnone.
Qed.

(** ** The header *)

Lemma selectedSavedLocation_Some p loc :
  selectedSavedLocation p = Some loc →
  loc ∈ savedLocations p ∧ loc_id loc = weatherLocationId p.
Proof.
  unfold selectedSavedLocation. intros H. apply find_some in H as [Hin Heq].
  split; [by apply list_elem_of_In|by apply String.eqb_eq].
Qed.

Lemma selectedSavedLocation_None p :
  selectedSavedLocation p = None →
  ∀ loc, loc ∈ savedLocations p → loc_id loc ≠ weatherLocationId p.
Proof.
  unfold selectedSavedLocation. intros H loc Hin.
  apply list_elem_of_In in Hin.
  pose proof (find_none _ _ H loc Hin) as Hne. simpl in Hne.
  by apply String.eqb_neq.
Qed.

(** X20: when the header is rendered a payload is available and its
    title is: ["Current location"] if the active location is the device
    pseudo-id and a device location is present; else the name of a
    saved location whose id is the active location; else, when no
    saved location has that id, the name of the home location. *)
Theorem headerTitle_cases p w title :
  headerTitle p w = Some title →
  is_Some (displayWeather p w)
  ∧ ((weatherLocationId p = "current-location"%string
      ∧ is_Some (currentLocation p) ∧ title = "Current location"%string)
     ∨ (weatherLocationId p ≠ "current-location"%string
        ∧ ∃ loc, loc ∈ savedLocations p ∧ loc_id loc = weatherLocationId p
                 ∧ title = loc_name loc)
     ∨ (weatherLocationId p ≠ "current-location"%string
        ∧ (∀ loc, loc ∈ savedLocations p → loc_id loc ≠ weatherLocationId p)
        ∧ ∃ h, homeLocation p = Some h ∧ title = loc_name h)).
Proof.
  unfold headerTitle, selectedLocation, isCurrentLocationSelected.
  destruct (displayWeather p w) as [d|]; [|done].
  destruct (String.eqb_spec (weatherLocationId p) "current-location") as [Hcur|Hcur].
  - destruct (currentLocation p) as [c|]; [|done].
    intros [= <-]. split; [eauto|]. left. eauto.
  - destruct (selectedSavedLocation p) as [loc|] eqn:Es.
    + intros [= <-]. split; [eauto|]. right. left. split; [done|].
      apply selectedSavedLocation_Some in Es as [? ?]. eauto.
    + destruct (homeLocation p) as [h|]; [|done].
      intros [= <-]. split; [eauto|]. right. right. split; [done|].
      split; [by apply selectedSavedLocation_None|eauto].
Qed.

(** X21: two cases in which the header does not match the data.  With
    no active location set, a device location present and a home
    location, the effects work for the device location while the
    header is titled with the home location's name.  With the device
    pseudo-id active and no device location, no header is rendered
    even when a payload is displayed. *)
Theorem header_mismatch p w :
  (∀ h, weatherLocationId p = ""%string → is_Some (currentLocation p) →
        homeLocation p = Some h →
        (∀ loc, loc ∈ savedLocations p → loc_id loc ≠ ""%string) →
        is_Some (displayWeather p w) →
        effectLocationId p = "current-location"%string
        ∧ headerTitle p w = Some (loc_name h))
  ∧ (weatherLocationId p = "current-location"%string → currentLocation p = None →
       headerTitle p w = None).
Proof.
  split.
  - intros h Hunset [c Hc] Hh Hsaved [d Hd].
    unfold effectLocationId, headerTitle, selectedLocation, isCurrentLocationSelected.
    rewrite Hunset, Hc, Hd, Hh. simpl.
    split; [done|].
    destruct (selectedSavedLocation p) as [loc|] eqn:Es; [|done].
    apply selectedSavedLocation_Some in Es as [Hin Hid].
    rewrite Hunset in Hid. by destruct (Hsaved loc Hin).
  - intros Hcur Hnone.
    unfold headerTitle, selectedLocation, isCurrentLocationSelected.
    rewrite Hcur, Hnone. simpl. by destruct (displayWeather p w).
Qed.

(** ** The settings panel *)

(** X22: a setting saved with [updateSetting] is what a later mount of
    the panel loads, if the value is truthy; a falsy value (a stored
    [0] or empty string) is saved but the later mount keeps its default
    instead.  Loading always clears the loading flag, and saving one
    setting does not change what is loaded for the other. *)
Theorem settings_round_trip (v : StoredValue) st store :
  let saved_interval :=
    (updateSetting "refreshInterval" v setRefreshInterval (st, store)).2 in
  let saved_unit :=
    (updateSetting "temperatureUnit" v setTemperatureUnit (st, store)).2 in
  (truthy_value v = true →
     refreshInterval (loadSettings saved_interval settingsAtMount) = v
     ∧ temperatureUnit (loadSettings saved_unit settingsAtMount) = v)
  ∧ (truthy_value v = false →
     saved_interval !! "refreshInterval"%string = Some v
     ∧ refreshInterval (loadSettings saved_interval settingsAtMount) = SNum 30
     ∧ temperatureUnit (loadSettings saved_unit settingsAtMount) = SStr "fahrenheit")
  ∧ loading (loadSettings saved_interval settingsAtMount) = false
  ∧ temperatureUnit (loadSettings saved_interval settingsAtMount)
    = temperatureUnit (loadSettings store settingsAtMount)
  ∧ refreshInterval (loadSettings saved_unit settingsAtMount)
    = refreshInterval (loadSettings store settingsAtMount).
Proof.
  intros saved_interval saved_unit.
  assert (Hi : saved_interval !! "refreshInterval"%string = Some v)
    by apply lookup_insert_eq.
  assert (Hu : saved_unit !! "temperatureUnit"%string = Some v)
    by apply lookup_insert_eq.
  assert (Hiu : saved_interval !! "temperatureUnit"%string
                = store !! "temperatureUnit"%string)
    by (by apply lookup_insert_ne).
  assert (Hui : saved_unit !! "refreshInterval"%string
                = store !! "refreshInterval"%string)
    by (by apply lookup_insert_ne).
  unfold loadSettings. rewrite Hi, Hu, Hiu, Hui.
  split; [|split; [|split; [|split]]].
  - intros ->. split; repeat case_match; done.
  - intros ->. split; [done|]. split; repeat case_match; done.
  - done.
  - destruct (truthy_value v); repeat case_match; done.
  - destruct (truthy_value v); repeat case_match; done.
Qed.

(** ** Runs of the page: more invariants *)

(** X23: along any run of the page from plugin load, with a clock that
    starts more than 30 s past the epoch and never runs backwards, the
    remaining cooldown of every location whose id is a plain key lies
    between [0] and the 30 s cooldown. *)
Theorem cooldown_remaining_in_range (evs : list (PageEvent Payload)) t0 ts id :
  plain_key id →
  REFRESH_COOLDOWN_MS < t0 → Forall (Z.le 0) ts →
  0 ≤ (getRefreshCooldownRemaining id (runPage evs (initWorld t0 ts))).1
    ≤ REFRESH_COOLDOWN_MS.
Proof.
  intros _ Ht0 Hts.
  pose proof (runPage_throttle evs _ (throttle_inv_init t0 ts Ht0 Hts)) as Hinv.
  rewrite getRefreshCooldownRemaining_value.
  destruct (lastRefreshTimestamp (runPage evs (initWorld t0 ts)) !! id) as [t|] eqn:E.
  - pose proof (thr_past _ Hinv _ _ E). unfold REFRESH_COOLDOWN_MS.
    destruct (t =? 0); lia.
  - by vm_compute.
Qed.








(** ** Runs of the page: a clock that stands still inside handlers *)

Lemma Date_now_still w : ticks w = [] → (Date_now w).2 = w.
Proof. unfold Date_now. simpl. by intros ->. Qed.

Lemma gate_still id arg w :
  ticks w = [] →
  ticks (gate id arg w).2 = []
  ∧ invocations (trace (gate id arg w).2) = invocations (trace w).
Proof.
  intros Hk.
  assert (Hcan : (canRefresh id w).2 = w).
  { unfold canRefresh. destruct (lastRefreshTimestamp w !! id) as [t|]; [|done].
    destruct (t =? 0); [done|].
    unfold mbind, M_bind, bind, mret, M_ret, ret.
    pose proof (Date_now_still w Hk) as H.
    destruct (Date_now w). simpl in *. done. }
  destruct ((canRefresh id w).1) eqn:Hok.
  - rewrite (gate_allowed _ _ _ Hok), Hcan.
    unfold refreshWeather, recordRefresh, mbind, M_bind, bind, modify.
    pose proof (Date_now_still w Hk) as H.
    destruct (Date_now w) as [t w1]. simpl in H. subst w1. simpl.
    split; [done|]. rewrite !invocations_app. simpl. by rewrite !app_nil_r.
  - by rewrite (gate_blocked _ _ _ Hok), Hcan.
Qed.

Lemma staleWhileRevalidateEffect_still p w :
  ticks w = [] →
  timers (staleWhileRevalidateEffect p w).2 = timers w
  ∧ ticks (staleWhileRevalidateEffect p w).2 = []
  ∧ invocations (trace (staleWhileRevalidateEffect p w).2) = invocations (trace w).
Proof.
  intros Hk. set (id := effectLocationId p).
  pose proof (Date_now_still w Hk) as Hd.
  destruct (weatherCache w !! id) as [e|] eqn:E.
  - destruct (Z_le_gt_dec (age w e) CACHE_TTL_MS) as [Hlive|Hold].
    + rewrite (staleWhileRevalidateEffect_live p w e E Hlive). fold id. rewrite Hd.
      set (w1 := with_cachedWeatherDisplay (Some (data e)) w).
      assert (Hs : isCacheStale id w1 = (false, w1)).
      { unfold isCacheStale.
        assert (E1 : weatherCache w1 !! id = Some e) by done. rewrite E1.
        unfold mbind, M_bind, bind, mret, M_ret, ret.
        rewrite (surjective_pairing (Date_now w1)).
        rewrite (Date_now_still w1 Hk). unfold Date_now at 1. cbn [fst].
        unfold age in Hlive.
        destruct (Z.gtb_spec (now w1 - timestamp e) CACHE_TTL_MS) as [Hgt|_]; [|done].
        simpl in Hgt. lia. }
      rewrite Hs. simpl. done.
    + rewrite (staleWhileRevalidateEffect_expired p w e E) by lia. rewrite Hd.
      fold id. set (w0 := with_isRevalidating _ _).
      destruct (gate_still id (directRefreshArg p) w0 Hk) as [Hk' Hi].
      destruct (gate_timers id (directRefreshArg p) w0) as [Hq _].
      by rewrite Hq, Hk', Hi.
  - rewrite (staleWhileRevalidateEffect_uncached p w E).
    fold id. set (w0 := with_isRevalidating _ _).
    destruct (gate_still id (directRefreshArg p) w0 Hk) as [Hk' Hi].
    destruct (gate_timers id (directRefreshArg p) w0) as [Hq _].
    by rewrite Hq, Hk', Hi.
Qed.

(** X25: if the clock does not move while a handler runs, the page
    never arms the debounce timer: along any run from plugin load no
    timer is ever pending and the debounced refresh action never runs,
    so every fetch is made by the direct path. *)
Theorem debounce_never_armed (evs : list (PageEvent Payload)) t0 :
  timers (runPage evs (initWorld t0 [])) = []
  ∧ invocations (trace (runPage evs (initWorld t0 []))) = [].
Proof.
  assert (H : ∀ w : World Payload,
            timers w = [] → ticks w = [] → invocations (trace w) = [] →
            timers (runPage evs w) = [] ∧ invocations (trace (runPage evs w)) = []).
  { induction evs as [|ev evs IH]; intros w Hq Hk Hi; [done|].
    simpl. destruct ev as [p|p|p|T fuel]; simpl.
    - destruct (staleWhileRevalidateEffect_still p w Hk) as (Hq' & Hk' & Hi').
      apply IH; congruence.
    - destruct (quiet_weatherArrivedEffect p w) as (_ & Ht & Hq' & _).
      apply IH; [congruence| |congruence].
      unfold weatherArrivedEffect. destruct (weather p) as [wx|]; [|done].
      unfold setCachedWeather, setCachedWeatherDisplay, setIsRevalidating.
      unfold mbind, M_bind, bind, modify.
      pose proof (Date_now_still w Hk) as Hd.
      destruct (Date_now w) as [t w1]. simpl in Hd. subst w1. done.
    - destruct (quiet_saveLocationEffect p w) as (_ & Ht & Hq' & _).
      apply IH; [congruence| |congruence].
      unfold saveLocationEffect. by destruct (truthy (weatherLocationId p)).
    - unfold mbind, M_bind, bind, mret, M_ret, ret.
      rewrite (idle_fires_nothing refreshAction fuel T w Hq). simpl.
      apply IH; done. }
  apply H; done.
Qed.

(** A fetch that asks no throttle is a plain action that leaves the
    clock alone. *)
Lemma refreshWeather_plain :
  plain_action (fun a : string => refreshWeather (Payload := Payload) (Some a))
  ∧ ∀ (a : string) w, now (refreshWeather (Some a) w).2 = now w.
Proof.
  split; [|done]. intros a w. split; [done|].
  unfold refreshWeather, modify. simpl. rewrite invocations_app. simpl.
  by rewrite app_nil_r.
Qed.

End MoreProperties.

(** * The properties at concrete inputs *)

Section Witnesses.

Lemma getCachedWeather_spec_witness :
  plain_key "nyc" ∧ Forall op_plain nyc_ops
  ∧ Forall (Z.le 0) [] ∧ Forall op_forward nyc_ops
  ∧ ((getCachedWeather "nyc" nyc_after).1 = None
       ↔ ¬ ∃ t d, (t, "nyc"%string, d) ∈ nyc_puts ∧ now nyc_after - t ≤ CACHE_TTL_MS).
Proof.
  assert (Hk : plain_key "nyc") by reflexivity.
  assert (Hp : Forall op_plain nyc_ops) by (repeat constructor).
  assert (H1 : Forall (Z.le 0) []) by constructor.
  assert (H2 : Forall op_forward nyc_ops) by (repeat constructor; simpl; lia).
  split; [exact Hk|]. split; [exact Hp|]. split; [exact H1|]. split; [exact H2|].
  exact (proj1 (getCachedWeather_spec nyc_ops 0 [] "nyc" nyc_after nyc_puts
                  Hk Hp H1 H2 eq_refl)).
Defined.


Lemma canRefresh_spec_witness :
  plain_key "paris"
  ∧ REFRESH_COOLDOWN_MS < now long_after
  ∧ hd 0 (ticks long_after) ≤ REFRESH_COOLDOWN_MS
  ∧ (canRefresh "paris" (recordRefresh "paris" long_after).2).1 = false.
Proof.
  assert (H1 : REFRESH_COOLDOWN_MS < now long_after) by (vm_compute; reflexivity).
  assert (H2 : hd 0 (ticks long_after) ≤ REFRESH_COOLDOWN_MS)
    by (vm_compute; discriminate).
  assert (Hk : plain_key "paris") by reflexivity.
  split; [exact Hk|]. split; [exact H1|]. split; [exact H2|].
  exact (proj1 (proj2 (proj2 (canRefresh_spec long_after "paris" Hk H1))) H2).
Defined.

Lemma debounce_trailing_edge_witness :
  0 < 300 ≤ TIMEOUT_MAX ∧ timers loaded = [] ∧ now loaded ≤ 0
  ∧ close_calls 300 0 later_calls
  ∧ fetches
      (trace (runUntil refreshAction 1 650
                (burst refreshAction 300 1 ((0, "paris"%string) :: later_calls) loaded).2).2)
    = [Some "oslo"%string].
Proof.
  assert (H1 : 0 < 300 ≤ TIMEOUT_MAX) by (unfold TIMEOUT_MAX; lia).
  assert (H2 : timers loaded = []) by reflexivity.
  assert (H3 : now loaded ≤ 0) by (vm_compute; discriminate).
  assert (H4 : close_calls 300 0 later_calls) by (simpl; lia).
  assert (H5 : (default (0, "paris"%string) (last later_calls)).1 + 300 ≤ 650)
    by (vm_compute; discriminate).
  split; [exact H1|]. split; [exact H2|]. split; [exact H3|]. split; [exact H4|].
  rewrite (proj1 (proj2 (proj2
    (debounce_trailing_edge refreshAction 300 0 0 "paris" later_calls loaded
       H1 refreshAction_plain H2 H3 H4))) 650 H5).
  vm_compute. reflexivity.
Defined.

Lemma refreshAction_gated_witness :
  (canRefresh "paris"
     (with_trace (trace paris_refreshed ++ [EvInvoke "paris" (now paris_refreshed)])
        paris_refreshed)).1 = false
  ∧ trace (debounce_callback refreshAction "paris" paris_refreshed).2
    = trace paris_refreshed ++ [EvInvoke "paris" (now paris_refreshed)].
Proof.
  assert (H1 : (canRefresh "paris"
     (with_trace (trace paris_refreshed ++ [EvInvoke "paris" (now paris_refreshed)])
        paris_refreshed)).1 = false) by (vm_compute; reflexivity).
  split; [exact H1|].
  exact (proj1 (proj1 (refreshAction_gated paris_refreshed "paris") H1)).
Defined.

Lemma initializeLocation_spec_witness :
  weatherLocationId paris_saved = ""%string
  ∧ storage paris_remembered !! LAST_LOCATION_KEY = Some "paris"%string
  ∧ "paris"%string ≠ ""%string
  ∧ still_resolves paris_saved "paris"
  ∧ (initializeLocation paris_saved paris_remembered).1 = Some "paris"%string.
Proof.
  assert (H1 : weatherLocationId paris_saved = ""%string) by reflexivity.
  assert (H2 : storage paris_remembered !! LAST_LOCATION_KEY = Some "paris"%string)
    by (vm_compute; reflexivity).
  assert (H3 : "paris"%string ≠ ""%string) by discriminate.
  assert (H4 : still_resolves paris_saved "paris").
  { left. exists (mkLocation "paris" "Paris"). split; [|reflexivity].
    simpl. apply list_elem_of_singleton. reflexivity. }
  repeat (split; [assumption|]).
  exact (proj1 (proj1 (proj2 (proj2 (initializeLocation_spec paris_saved paris_remembered)))
                  H1) "paris"%string H2 H3 H4).
Defined.

Lemma render_error_iff_witness :
  weatherError fetch_failed ≠ ""%string
  ∧ cachedWeatherDisplay loaded = None ∧ weather fetch_failed = None
  ∧ ∃ message, render fetch_failed loaded = ErrorView message.
Proof.
  assert (H1 : weatherError fetch_failed ≠ ""%string) by discriminate.
  assert (H2 : cachedWeatherDisplay loaded = None) by reflexivity.
  assert (H3 : weather fetch_failed = None) by reflexivity.
  repeat (split; [assumption|]).
  exact (proj2 (proj1 (render_error_iff fetch_failed loaded)) (conj H1 (conj H2 H3))).
Defined.

Lemma cache_keyed_invariant_witness :
  cache_keyed loaded ∧ cache_keyed (setCachedWeather "nyc" 7%nat loaded).2.
Proof.
  assert (H1 : cache_keyed loaded)
    by exact (proj1 (cache_keyed_invariant (Payload := nat)) 0 []).
  split; [exact H1|].
  exact (proj1 (proj2 (cache_keyed_invariant (Payload := nat))) loaded "nyc" 7%nat H1).
Defined.

Lemma weatherArrived_stores_under_active_witness :
  plain_key (effectLocationId (viewing "tokyo"))
  ∧ fetchedFor paris_arrives ≠ effectLocationId (viewing "tokyo")
  ∧ cachedWeatherDisplay
      (weatherArrivedEffect (deliver paris_arrives (viewing "tokyo")) tokyo_shown).2
    = Some 2%nat.
Proof.
  assert (H0 : plain_key (effectLocationId (viewing "tokyo"))) by reflexivity.
  assert (H1 : fetchedFor paris_arrives ≠ effectLocationId (viewing "tokyo"))
    by (vm_compute; discriminate).
  split; [exact H0|]. split; [exact H1|].
  exact (proj1 (proj2 (proj2 (proj2
    (weatherArrived_stores_under_active paris_arrives (viewing "tokyo") tokyo_shown
       H0 H1))))).
Defined.

Lemma stale_switch_clears_display_witness :
  weatherCache paris_stale !! effectLocationId (viewing "paris")
    = Some (mkCached 5%nat 0 "paris")
  ∧ CACHE_TTL_MS < age paris_stale (mkCached 5%nat 0 "paris")
  ∧ cachedWeatherDisplay (staleWhileRevalidateEffect (viewing "paris") paris_stale).2 = None.
Proof.
  assert (H1 : weatherCache paris_stale !! effectLocationId (viewing "paris")
               = Some (mkCached 5%nat 0 "paris")) by (vm_compute; reflexivity).
  assert (H2 : CACHE_TTL_MS < age paris_stale (mkCached 5%nat 0 "paris"))
    by (vm_compute; reflexivity).
  split; [exact H1|]. split; [exact H2|].
  exact (proj1 (stale_switch_clears_display (viewing "paris") paris_stale _ H1 H2)).
Defined.

End Witnesses.

(** * Where the code departs from the specification *)

Section Counterexamples.

(** C1, as written, fails: Tokyo is active and displayed when the
    payload fetched for Paris arrives; afterwards the cache has no entry
    for Paris and the display shows the Paris payload. *)
Lemma late_arrival_counterexample :
  fetchedFor paris_arrives ≠ effectLocationId (viewing "tokyo")
  ∧ cachedWeatherDisplay tokyo_shown = Some 1%nat
  ∧ ¬ late_arrival_per_spec paris_arrives (viewing "tokyo") tokyo_shown.
Proof.
  split; [vm_compute; discriminate|]. split; [reflexivity|].
  unfold late_arrival_per_spec. intros [Hcache _].
  vm_compute in Hcache. discriminate.
Qed.

(** The switch to Paris with an entry 301 s old, run on the code: the
    display is cleared instead of showing the entry, no timer is
    pending, and the fetch is made directly. *)
Example paris_stale_switch_run :
  age paris_stale (mkCached 5%nat 0 "paris") = 301000
  ∧ cachedWeatherDisplay (staleWhileRevalidateEffect (viewing "paris") paris_stale).2 = None
  ∧ timers (staleWhileRevalidateEffect (viewing "paris") paris_stale).2 = []
  ∧ fetches (trace (staleWhileRevalidateEffect (viewing "paris") paris_stale).2)
    = [Some "paris"%string].
Proof. vm_compute. repeat split. Qed.

(** The scenario of the specification for New York: a put at time 0; at
    100 s the entry is returned and is not stale; at 301 s it is gone. *)
Example nyc_scenario :
  data <$> (getCachedWeather "nyc" nyc_after).1 = Some 7%nat
  ∧ (isCacheStale "nyc" nyc_after).1 = false
  ∧ (getCachedWeather "nyc" (elapse 201000 nyc_after).2).1 = None.
Proof. vm_compute. repeat split. Qed.

(** The debounced action for Paris fires 300 ms after the call while
    Paris was refreshed 10 s ago: it runs, and makes no fetch. *)
Example paris_throttled_run :
  let w := (runUntil refreshAction 1 (now paris_refreshed + 300)
              (debouncedRefresh "paris" paris_refreshed).2).2 in
  invocations (trace w) = [("paris"%string, now paris_refreshed + 300)]
  ∧ fetches (trace w) = fetches (trace paris_refreshed).
Proof. vm_compute. repeat split. Qed.

End Counterexamples.

(** * The properties of the rest of the plugin at concrete inputs *)

Section MoreWitnesses.

Lemma getWeatherIconKey_prefix_witness :
  (String.length "0" < 2)%nat ∧ getWeatherIconKey (Some "0"%string) = "Cloud"%string.
Proof.
  assert (H1 : (String.length "0" < 2)%nat) by (simpl; lia).
  split; [exact H1|].
  exact (proj2 (proj2 getWeatherIconKey_prefix) "0"%string H1).
Defined.

Lemma getWeatherIcon_variants_witness :
  WEATHER_ICON_MAP !! "01"%string = Some "Sun"%string
  ∧ "01"%string ≠ "11"%string
  ∧ IndexTsx.getWeatherIcon (Some ("01" +:+ "d")) = getWeatherIcon (Some ("01" +:+ "d")).
Proof.
  assert (H1 : WEATHER_ICON_MAP !! "01"%string = Some "Sun"%string)
    by (vm_compute; reflexivity).
  assert (H2 : "01"%string ≠ "11"%string) by discriminate.
  split; [exact H1|]. split; [exact H2|].
  exact (proj1 (getWeatherIcon_variants "01" "Sun" "d" H1 (or_introl eq_refl)) H2).
Defined.

Lemma getRefreshCooldownRemaining_bounds_witness :
  plain_key "paris"
  ∧ lastRefreshTimestamp paris_refreshed !! "paris"%string = Some 1000000
  ∧ 1000000 ≤ now paris_refreshed
  ∧ (getRefreshCooldownRemaining "paris" paris_refreshed).1 ≤ REFRESH_COOLDOWN_MS.
Proof.
  assert (H1 : lastRefreshTimestamp paris_refreshed !! "paris"%string = Some 1000000)
    by (vm_compute; reflexivity).
  assert (H2 : 1000000 ≤ now paris_refreshed) by (vm_compute; discriminate).
  assert (Hk : plain_key "paris") by reflexivity.
  split; [exact Hk|]. split; [exact H1|]. split; [exact H2|].
  exact (proj1 (proj2 (proj2 (getRefreshCooldownRemaining_bounds paris_refreshed "paris" Hk)))
           1000000 H1 H2).
Defined.

Lemma cooldown_remaining_vs_canRefresh_witness :
  (canRefresh "paris" long_after).1 = true
  ∧ (getRefreshCooldownRemaining "paris" long_after).1 = 0.
Proof.
  assert (H1 : (canRefresh "paris" long_after).1 = true) by (vm_compute; reflexivity).
  split; [exact H1|].
  exact (proj1 (cooldown_remaining_vs_canRefresh long_after "paris") H1).
Defined.

Lemma isCacheStale_iff_absent_witness :
  (isCacheStale "paris" paris_stale).1 = true
  ∧ (getCachedWeather "paris" paris_stale).1 = None.
Proof.
  assert (H1 : (isCacheStale "paris" paris_stale).1 = true) by (vm_compute; reflexivity).
  split; [exact H1|].
  exact (proj1 (isCacheStale_iff_absent paris_stale "paris") H1).
Defined.


Lemma switch_to_fresh_witness :
  plain_key (effectLocationId (viewing "paris"))
  ∧ weather (viewing "paris") = None
  ∧ weatherCache paris_fresh !! effectLocationId (viewing "paris")
    = Some (mkCached 5%nat 0 "paris")
  ∧ age paris_fresh (mkCached 5%nat 0 "paris") ≤ CACHE_TTL_MS
  ∧ age paris_fresh (mkCached 5%nat 0 "paris") + hd 0 (ticks paris_fresh) ≤ CACHE_TTL_MS
  ∧ cachedWeatherDisplay (onLocationChange (viewing "paris") paris_fresh).2
    = Some 5%nat.
Proof.
  assert (H0 : plain_key (effectLocationId (viewing "paris"))) by reflexivity.
  assert (Hw : weather (viewing "paris") = None) by reflexivity.
  assert (H1 : weatherCache paris_fresh !! effectLocationId (viewing "paris")
               = Some (mkCached 5%nat 0 "paris")) by (vm_compute; reflexivity).
  assert (H2 : age paris_fresh (mkCached 5%nat 0 "paris") ≤ CACHE_TTL_MS)
    by (vm_compute; discriminate).
  assert (H3 : age paris_fresh (mkCached 5%nat 0 "paris") + hd 0 (ticks paris_fresh)
               ≤ CACHE_TTL_MS) by (vm_compute; discriminate).
  split; [exact H0|].
  split; [exact Hw|]. split; [exact H1|]. split; [exact H2|]. split; [exact H3|].
  exact (proj1 (switch_to_fresh (viewing "paris") paris_fresh _ H0 Hw H1 H2 H3)).
Defined.

Lemma arrival_then_switch_back_witness :
  plain_key (effectLocationId tokyo_arrives)
  ∧ weather tokyo_arrives = Some 1%nat
  ∧ effectLocationId (viewing "tokyo") = effectLocationId tokyo_arrives
  ∧ now tokyo_shown - now loaded ≤ CACHE_TTL_MS
  ∧ weather (viewing "tokyo") = None
  ∧ cachedWeatherDisplay (onLocationChange (viewing "tokyo") tokyo_shown).2
    = Some 1%nat.
Proof.
  assert (H0 : plain_key (effectLocationId tokyo_arrives)) by reflexivity.
  assert (H1 : weather tokyo_arrives = Some 1%nat) by reflexivity.
  assert (H2 : effectLocationId (viewing "tokyo") = effectLocationId tokyo_arrives)
    by reflexivity.
  assert (H3 : weatherCache tokyo_shown !! effectLocationId tokyo_arrives
               = weatherCache (weatherArrivedEffect tokyo_arrives loaded).2
                   !! effectLocationId tokyo_arrives) by reflexivity.
  assert (H4 : now tokyo_shown - now loaded ≤ CACHE_TTL_MS) by (vm_compute; discriminate).
  assert (H5 : now tokyo_shown - now loaded + hd 0 (ticks tokyo_shown) ≤ CACHE_TTL_MS)
    by (vm_compute; discriminate).
  assert (H6 : weather (viewing "tokyo") = None) by reflexivity.
  split; [exact H0|]. split; [exact H1|]. split; [exact H2|]. split; [exact H4|].
  split; [exact H6|].
  exact (proj1 (proj2 (proj2 (arrival_then_switch_back tokyo_arrives (viewing "tokyo")
                  loaded tokyo_shown 1%nat H0 H1 H2 H3 H4 H5))) H6).
Defined.

Lemma refreshes_are_spaced_witness :
  trace (runPage two_paris_visits (initWorld 100000 [])) !! 0%nat
    = Some (EvRecordRefresh "paris" 100000)
  ∧ trace (runPage two_paris_visits (initWorld 100000 [])) !! 2%nat
    = Some (EvRecordRefresh "paris" 140000)
  ∧ REFRESH_COOLDOWN_MS < 140000 - 100000.
Proof.
  assert (H1 : trace (runPage two_paris_visits (initWorld 100000 [])) !! 0%nat
               = Some (EvRecordRefresh "paris" 100000)) by (vm_compute; reflexivity).
  assert (H2 : trace (runPage two_paris_visits (initWorld 100000 [])) !! 2%nat
               = Some (EvRecordRefresh "paris" 140000)) by (vm_compute; reflexivity).
  assert (H3 : REFRESH_COOLDOWN_MS < 100000) by (vm_compute; reflexivity).
  assert (H4 : Forall (Z.le 0) []) by constructor.
  assert (H5 : (0 < 2)%nat) by lia.
  split; [exact H1|]. split; [exact H2|].
  exact (refreshes_are_spaced two_paris_visits 100000 [] 0 2 "paris" 100000 140000
           H3 H4 H5 H1 H2).
Defined.

Lemma fetches_are_recorded_witness :
  trace (runPage two_paris_visits (initWorld 100000 [])) !! 1%nat
    = Some (EvRefreshWeather (Some "paris"%string))
  ∧ ∃ (i : nat) id t,
      1%nat = S i
      ∧ trace (runPage two_paris_visits (initWorld 100000 [])) !! i
        = Some (EvRecordRefresh id t)
      ∧ fetch_arg_of id (Some "paris"%string).
Proof.
  assert (H1 : trace (runPage two_paris_visits (initWorld 100000 [])) !! 1%nat
               = Some (EvRefreshWeather (Some "paris"%string)))
    by (vm_compute; reflexivity).
  assert (H3 : REFRESH_COOLDOWN_MS < 100000) by (vm_compute; reflexivity).
  assert (H4 : Forall (Z.le 0) []) by constructor.
  split; [exact H1|].
  exact (fetches_are_recorded two_paris_visits 100000 [] 1 (Some "paris"%string) H3 H4 H1).
Defined.

Lemma debounce_spaced_calls_witness :
  0 < 300 ≤ TIMEOUT_MAX ∧ timers loaded = [] ∧ now loaded ≤ 0
  ∧ spaced_calls 300 0 far_calls
  ∧ fetches
      (trace (runUntil fetch_always 1 1200
                (burst fetch_always 300 1 ((0, "paris"%string) :: far_calls) loaded).2).2)
    = [Some "paris"%string; Some "tokyo"%string; Some "oslo"%string].
Proof.
  assert (H1 : 0 < 300 ≤ TIMEOUT_MAX) by (unfold TIMEOUT_MAX; lia).
  assert (H2 : timers loaded = []) by reflexivity.
  assert (H3 : now loaded ≤ 0) by (vm_compute; discriminate).
  assert (H4 : spaced_calls 300 0 far_calls) by (simpl; lia).
  assert (H5 : (default (0, "paris"%string) (last far_calls)).1 + 300 ≤ 1200)
    by (vm_compute; discriminate).
  split; [exact H1|]. split; [exact H2|]. split; [exact H3|]. split; [exact H4|].
  rewrite (proj1 (debounce_spaced_calls fetch_always 300 0 0 "paris" far_calls 1200 loaded
                    H1 (proj1 refreshWeather_plain) (proj2 refreshWeather_plain)
                    H2 H3 H4 H5)).
  vm_compute. reflexivity.
Defined.

Lemma initializeLocation_resolves_witness :
  (initializeLocation paris_saved paris_remembered).1 = Some "paris"%string
  ∧ still_resolves paris_saved "paris".
Proof.
  assert (H1 : (initializeLocation paris_saved paris_remembered).1 = Some "paris"%string)
    by (vm_compute; reflexivity).
  split; [exact H1|].
  exact (initializeLocation_resolves paris_saved paris_remembered "paris" H1).
Defined.

Lemma save_then_initialize_witness :
  weatherLocationId (viewing "oslo") ≠ ""%string
  ∧ weatherLocationId paris_saved = ""%string
  ∧ ¬ still_resolves paris_saved "oslo"
  ∧ (initializeLocation paris_saved (saveLocationEffect (viewing "oslo") loaded).2).1
    = fallback_location paris_saved.
Proof.
  assert (H1 : weatherLocationId (viewing "oslo") ≠ ""%string) by discriminate.
  assert (H2 : weatherLocationId paris_saved = ""%string) by reflexivity.
  assert (H3 : ¬ still_resolves paris_saved "oslo").
  { intros [(loc & Hin & Hid)|[[Hcur _]|(h & Hh & _)]].
    - simpl in Hin. apply list_elem_of_singleton in Hin. subst loc. discriminate.
    - discriminate.
    - discriminate. }
  split; [exact H1|]. split; [exact H2|]. split; [exact H3|].
  exact (proj2 (save_then_initialize (viewing "oslo") paris_saved loaded H1 H2) H3).
Defined.

Lemma effectLocationId_facts_witness :
  weatherLocationId (viewing "paris") ≠ ""%string
  ∧ effectLocationId (viewing "paris") = "paris"%string.
Proof.
  assert (H1 : weatherLocationId (viewing "paris") ≠ ""%string) by discriminate.
  split; [exact H1|].
  exact (proj1 (proj2 (effectLocationId_facts (viewing "paris"))) H1).
Defined.

Lemma initializeLocation_without_memory_witness :
  (initializeLocation home_only loaded).1 = IndexTsx.initialLocationEffect home_only.
Proof.
  apply (initializeLocation_without_memory home_only loaded).
  intros lastLocation H. vm_compute in H. discriminate.
Defined.

Lemma directRefreshArg_vs_index_witness :
  effectLocationId (viewing "paris") ≠ "default"%string
  ∧ directRefreshArg (viewing "paris") = IndexTsx.refreshArg (viewing "paris").
Proof.
  assert (H1 : effectLocationId (viewing "paris") ≠ "default"%string)
    by (vm_compute; discriminate).
  split; [exact H1|].
  exact (proj2 (directRefreshArg_vs_index (viewing "paris")) H1).
Defined.

Lemma render_vs_index_witness :
  cachedWeatherDisplay paris_fresh = None
  ∧ IndexTsx.render fetch_failed = ErrorView "boom"
  ∧ render fetch_failed paris_fresh = ErrorView "boom".
Proof.
  assert (H1 : cachedWeatherDisplay paris_fresh = None) by reflexivity.
  assert (H2 : IndexTsx.render fetch_failed = ErrorView "boom") by reflexivity.
  split; [exact H1|]. split; [exact H2|].
  exact (proj1 (proj2 (render_vs_index fetch_failed paris_fresh)) H1 "boom"%string H2).
Defined.

Lemma headerTitle_cases_witness :
  headerTitle tokyo_saved tokyo_shown = Some "Tokyo"%string
  ∧ is_Some (displayWeather tokyo_saved tokyo_shown).
Proof.
  assert (H1 : headerTitle tokyo_saved tokyo_shown = Some "Tokyo"%string)
    by reflexivity.
  split; [exact H1|].
  exact (proj1 (headerTitle_cases tokyo_saved tokyo_shown "Tokyo" H1)).
Defined.

Lemma header_mismatch_witness :
  weatherLocationId device_and_home = ""%string
  ∧ is_Some (currentLocation device_and_home)
  ∧ is_Some (displayWeather device_and_home loaded)
  ∧ effectLocationId device_and_home = "current-location"%string
  ∧ headerTitle device_and_home loaded = Some "Oslo"%string.
Proof.
  assert (H1 : weatherLocationId device_and_home = ""%string) by reflexivity.
  assert (H2 : is_Some (currentLocation device_and_home)) by (simpl; eauto).
  assert (H3 : homeLocation device_and_home = Some (mkLocation "oslo" "Oslo"))
    by reflexivity.
  assert (H4 : ∀ loc, loc ∈ savedLocations device_and_home → loc_id loc ≠ ""%string).
  { intros loc Hin. simpl in Hin. by apply elem_of_nil in Hin. }
  assert (H5 : is_Some (displayWeather device_and_home loaded)) by (simpl; eauto).
  split; [exact H1|]. split; [exact H2|]. split; [exact H5|].
  exact (proj1 (header_mismatch device_and_home loaded) _ H1 H2 H3 H4 H5).
Defined.

Lemma settings_round_trip_witness :
  truthy_value (SNum 15) = true
  ∧ refreshInterval
      (loadSettings
         (updateSetting "refreshInterval" (SNum 15) setRefreshInterval
            (settingsAtMount, ∅)).2
         settingsAtMount)
    = SNum 15.
Proof.
  assert (H1 : truthy_value (SNum 15) = true) by reflexivity.
  split; [exact H1|].
  exact (proj1 (proj1 (settings_round_trip (SNum 15) settingsAtMount ∅) H1)).
Defined.

Lemma cooldown_remaining_in_range_witness :
  plain_key "paris" ∧ REFRESH_COOLDOWN_MS < 100000 ∧ Forall (Z.le 0) []
  ∧ 0 ≤ (getRefreshCooldownRemaining "paris"
           (runPage two_paris_visits (initWorld 100000 []))).1
      ≤ REFRESH_COOLDOWN_MS.
Proof.
  assert (H3 : REFRESH_COOLDOWN_MS < 100000) by (vm_compute; reflexivity).
  assert (H4 : Forall (Z.le 0) []) by constructor.
  assert (Hk : plain_key "paris") by reflexivity.
  split; [exact Hk|]. split; [exact H3|]. split; [exact H4|].
  exact (cooldown_remaining_in_range two_paris_visits 100000 [] "paris" Hk H3 H4).
Defined.


End MoreWitnesses.
